(** * pilbox: request validation, option resolution, operation pipeline,
      response headers and shutdown of [pilbox/app.py]

    A shallow embedding of the handler code of [pilbox/app.py] and the
    properties its design document states about it.  Python dictionaries are
    finite maps, exceptions are an error result, the calls made to the image
    library and to the HTTP client are recorded in a log carried by the
    handler state. *)

From Stdlib Require Import ZArith QArith Lqa Ascii String.
From stdpp Require Import gmap strings list fin_maps.

Local Open Scope string_scope.
Local Open Scope Z_scope.
Local Open Scope list_scope.

(** ** Python values and strings *)

Module Py.

(** The values that appear in the application settings and in option
    dictionaries: [None], strings, integers, booleans and collections of
    strings (the lists and sets of the [multiple=True] options). *)
Inductive value : Type :=
| VNone
| VStr (s : string)
| VInt (z : Z)
| VBool (b : bool)
| VList (l : list string).

#[global] Instance value_eq_dec : EqDecision value.
Proof. solve_decision. Defined.

(** Python truthiness, as used by [if v], [v and ...], [v or ...], [any]. *)
Definition truthy (v : value) : bool :=
  match v with
  | VNone => false
  | VStr s => negb (String.eqb s "")
  | VInt z => negb (z =? 0)
  | VBool b => b
  | VList l => negb (Nat.eqb (length l) 0)
  end.

(** An argument of the request seen as a value: [None] or a string. *)
Definition of_arg (a : option string) : value :=
  match a with
  | None => VNone
  | Some s => VStr s
  end.

(** [s.startswith(p)] *)
Definition startswith (s p : string) : bool := String.prefix p s.

(** [s.split(",")]: every comma separates, so the empty string gives one
    empty field and [n] commas give [n + 1] fields. *)
Fixpoint split_comma (s : string) : list string :=
  match s with
  | EmptyString => [""]
  | String c s' =>
      if Ascii.eqb c ","%char then "" :: split_comma s'
      else match split_comma s' with
           | [] => [String c ""]
           | f :: fs => String c f :: fs
           end
  end.

(** [s.lower()] on ASCII text. *)
Definition lower_ascii (c : Ascii.ascii) : Ascii.ascii :=
  let n := Ascii.nat_of_ascii c in
  if (Nat.leb 65 n && Nat.leb n 90)%bool
  then Ascii.ascii_of_nat (n + 32) else c.

Fixpoint lower (s : string) : string :=
  match s with
  | EmptyString => EmptyString
  | String c s' => String (lower_ascii c) (lower s')
  end.

(** [x in l] on a list of strings. *)
Definition mem (x : string) (l : list string) : bool :=
  bool_decide (x ∈ l).

(** [t in s] on strings: [t] occurs in [s]. *)
Fixpoint contains (s t : string) : bool :=
  String.prefix t s ||
  match s with
  | EmptyString => false
  | String _ s' => contains s' t
  end.

(** The characters of a string, as iterating over it yields them. *)
Fixpoint chars (s : string) : list string :=
  match s with
  | EmptyString => []
  | String c s' => String c EmptyString :: chars s'
  end.

End Py.

Import Py.

(** ** Errors *)

(** The error classes of [pilbox.errors] that [app.py] raises. *)
Inductive ErrorKind : Type :=
| UrlError
| OperationError
| SignatureError
| ClientError
| HostError
| DimensionsError
| FetchError.

(** What a [raise] carries: a pilbox error with its message, an error class
    of [pilbox.errors] raised by the argument validators of [pilbox.image],
    or an exception of the interpreter ([TypeError], [AttributeError], ...). *)
Inductive exn : Type :=
| PilboxError (k : ErrorKind) (msg : string)
| ImageError (cls : string) (msg : string)
| PyError (cls : string).

Inductive result (A : Type) : Type :=
| Ok (a : A)
| Raise (e : exn).
Arguments Ok {A} a.
Arguments Raise {A} e.

#[global] Instance result_ret : MRet result := fun A a => Ok a.
#[global] Instance result_bind : MBind result := fun A B f r =>
  match r with
  | Ok a => f a
  | Raise e => Raise e
  end.

(** [raises r k]: [r] is a pilbox error of kind [k]. *)
Definition raises {A} (r : result A) (k : ErrorKind) : Prop :=
  ∃ msg, r = Raise (PilboxError k msg).

(** ** Requests and settings *)

(** A request: the query arguments as [RequestHandler.get_argument] of
    tornado gives them (for each name present the decoded, stripped last
    value, possibly the empty string), and the raw query string of the uri. *)
Record Request : Type := {
  arguments : gmap string string;
  uri_query : string;
}.

(** [self.settings]: the application settings dictionary. *)
Abbreviation Settings := (gmap string value).

(** [self.settings.get(k)], [None] for a missing key. *)
Definition settings_get (st : Settings) (k : string) : value :=
  default VNone (st !! k).

(** [ImageHandler.get_argument(name)]: the default is [None]. *)
Definition get_argument (rq : Request) (name : string) : option string :=
  arguments rq !! name.

(** ** Option resolution *)

(** [ImageHandler._get_options]: every entry whose value is [None] takes
    [self.settings.get(k, None)]; the keys stay as they are. *)
Definition _get_options (st : Settings) (opts : gmap string value)
  : gmap string value :=
  map_imap (fun k v =>
              Some (match v with VNone => settings_get st k | _ => v end))
           opts.

(** [dict(k1=self.get_argument(a1), ...)] *)
Definition dict_of_args (rq : Request) (fields : list (string * string))
  : gmap string value :=
  list_to_map ((fun '(k, a) => (k, of_arg (get_argument rq a))) <$> fields).

(** The option names of each family with the request argument they read. *)
Definition resize_fields : list (string * string) :=
  [("mode", "mode"); ("filter", "filter"); ("position", "pos");
   ("background", "bg"); ("retain", "retain")].

Definition rotate_fields : list (string * string) :=
  [("expand", "expand")].

Definition watermark_fields : list (string * string) :=
  [("watermark_txt", "watermark_txt"); ("watermark_img", "watermark_img");
   ("watermark_pos", "watermark_pos");
   ("watermark_txt_size", "watermark_txt_size");
   ("watermark_txt_color", "watermark_txt_color");
   ("watermark_img_ratio", "watermark_img_ratio")].

Definition save_fields : list (string * string) :=
  [("format", "fmt"); ("optimize", "opt"); ("quality", "q");
   ("progressive", "prog"); ("background", "bg"); ("preserve_exif", "exif");
   ("watermark_pos", "watermark_pos");
   ("watermark_txt_size", "watermark_txt_size");
   ("watermark_txt_color", "watermark_txt_color");
   ("watermark_img_ratio", "watermark_img_ratio")].

Definition _get_resize_options (st : Settings) (rq : Request) :=
  _get_options st (dict_of_args rq resize_fields).

Definition _get_rotate_options (st : Settings) (rq : Request) :=
  _get_options st (dict_of_args rq rotate_fields).

Definition _get_watermark_options (st : Settings) (rq : Request) :=
  _get_options st (dict_of_args rq watermark_fields).

Definition _get_save_options (st : Settings) (rq : Request) :=
  _get_options st (dict_of_args rq save_fields).


(** ** Collaborators *)

Abbreviation bytes := (list Byte.byte).

(** The response of the HTTP client: [resp.buffer] and [resp.headers]. *)
Record Response : Type := {
  buffer : bytes;
  headers : gmap string string;
}.

(** How a call into the standard library ends: it returns, or it raises an
    exception of the interpreter, named by its class. *)
Inductive outcome (A : Type) : Type :=
| Returns (a : A)
| Throws (cls : string).
Arguments Returns {A} a.
Arguments Throws {A} cls.

Definition of_outcome {A} (o : outcome A) : result A :=
  match o with
  | Returns a => Ok a
  | Throws cls => Raise (PyError cls)
  end.

(** How a call of [AsyncHTTPClient.fetch] ends: with a response, with one of
    the two exceptions that [fetch_image] catches ([socket.gaierror],
    [tornado.httpclient.HTTPError]), or with any other exception, named by
    its class. *)
Inductive FetchOutcome : Type :=
| Fetched (resp : Response)
| FetchFailed
| FetchRaised (cls : string).

(** What [app.py] uses of the interpreter and of its libraries, taken as
    given: [pilbox.signature.verify_signature]; [urlparse(u).hostname] and
    [urljoin], which raise ([ValueError]) on a url they cannot parse; the
    builtin [int] ([None] for its [ValueError]); and [AsyncHTTPClient.fetch]
    with the request settings. *)
Record Lib : Type := {
  verify_signature : value → string → bool;
  urlparse_hostname : option string → outcome (option string);
  urljoin : value → option string → outcome (option string);
  py_int : string → option Z;
  client_fetch : Settings → option string → FetchOutcome;
}.

(** [pilbox.image.Image]: its static argument validators, its constructor
    from a byte stream, its transforms and [save], which change the image in
    place (each gives the image as it leaves it), and the [img.format]
    attribute. *)
Record ImageLib : Type := {
  Img : Type;
  validate_dimensions : option string → option string → result ();
  validate_degree : option string → result ();
  validate_rectangle : option string → result ();
  validate_options : gmap string value → result ();
  Image_new : bytes → result Img;
  Image_resize :
    option string → option string → gmap string value → Img → result Img;
  Image_rotate : option string → gmap string value → Img → result Img;
  Image_region : list string → Img → result Img;
  Image_watermark : option string → gmap string value → Img → result Img;
  Image_save : gmap string value → Img → result (bytes * Img);
  Image_format : Img → option string;
}.

(** ** Comparisons and iteration on settings values *)

(** [n > v] for an integer [n], as Python 3 has it: integers and booleans
    compare, anything else is a [TypeError]. *)
Definition int_gt (n : Z) (v : value) : result bool :=
  match v with
  | VInt m => Ok (m <? n)
  | VBool b => Ok (Z.b2z b <? n)
  | _ => Raise (PyError "TypeError")
  end.

(** The strings a value yields when it is iterated over. *)
Definition iter_strings (v : value) : result (list string) :=
  match v with
  | VList l => Ok l
  | VStr s => Ok (chars s)
  | _ => Raise (PyError "TypeError")
  end.

(** [x in v] for [x] a string or [None]. *)
Definition py_in (x : option string) (v : value) : result bool :=
  match v, x with
  | VList l, Some h => Ok (mem h l)
  | VList l, None => Ok false
  | VStr s, Some h => Ok (contains s h)
  | _, _ => Raise (PyError "TypeError")
  end.

(** ** Request validation *)

Section Validation.

Context (L : Lib) (I : ImageLib).
Variable st : Settings.
Variable rq : Request.

(** [ImageHandler._get_operations] *)
Definition _get_operations : result (list string) :=
  match get_argument rq "op" with
  | Some s => Ok (split_comma s)
  | None =>
      let d := settings_get st "operation" in
      match (if truthy d then d else VStr "resize") with
      | VStr s => Ok (split_comma s)
      | _ => Raise (PyError "AttributeError")
      end
  end.

(** [ImageHandler._validate_operation] *)
Definition _validate_operation : result () :=
  ops ← _get_operations;
  let operations : gset string := list_to_set ops in
  allowed ← iter_strings (settings_get st "allowed_operations");
  if negb (bool_decide (operations ⊆ list_to_set allowed)) then
    Raise (PilboxError OperationError "Unsupported operation")
  else
    many ← int_gt (Z.of_nat (size operations))
                  (settings_get st "max_operations");
    if many : bool then
      Raise (PilboxError OperationError "Too many operations")
    else Ok ().

(** [ImageHandler._validate_url] *)
Definition _validate_url : result () :=
  let url := get_argument rq "url" in
  match url with
  | None | Some "" => Raise (PilboxError UrlError "Missing url")
  | Some u =>
      if startswith u "http://" || startswith u "https://" then Ok ()
      else if truthy (settings_get st "implicit_base_url")
              && startswith u "/" then Ok ()
      else Raise (PilboxError UrlError "Unsupported protocol")
  end.

(** [ImageHandler._validate_client] *)
Definition _validate_client : result () :=
  let client := settings_get st "client_name" in
  if truthy client
     && bool_decide (of_arg (get_argument rq "client") ≠ client)
  then Raise (PilboxError ClientError "Invalid client")
  else Ok ().

(** [ImageHandler._validate_signature] *)
Definition _validate_signature : result () :=
  let key := settings_get st "client_key" in
  if truthy key && negb (verify_signature L key (uri_query rq))
  then Raise (PilboxError SignatureError "Invalid signature")
  else Ok ().

(** [ImageHandler._validate_host] *)
Definition _validate_host : result () :=
  let hosts := settings_get st "allowed_hosts" in
  if truthy hosts then
    host ← of_outcome (urlparse_hostname L (get_argument rq "url"));
    known ← py_in host hosts;
    if known : bool then Ok ()
    else Raise (PilboxError HostError "Invalid host")
  else Ok ().

(** [a and int(a) > limit] *)
Definition exceeds (a : option string) (limit : value) : result bool :=
  match a with
  | None | Some "" => Ok false
  | Some s =>
      match py_int L s with
      | None => Raise (PyError "ValueError")
      | Some n => int_gt n limit
      end
  end.

(** The [if "resize" in ops:] block of [validate_request]. *)
Definition validate_resize (opts : gmap string value)
  : result (gmap string value) :=
  let w := get_argument rq "w" in
  let h := get_argument rq "h" in
  validate_dimensions I w h;;
  wide ← exceeds w (settings_get st "max_resize_width");
  if wide : bool then
    Raise (PilboxError DimensionsError "Exceeds maximum allowed width")
  else
    high ← exceeds h (settings_get st "max_resize_height");
    if high : bool then
      Raise (PilboxError DimensionsError "Exceeds maximum allowed height")
    else Ok (_get_resize_options st rq ∪ opts).

(** The [if "rotate" in ops:] block. *)
Definition validate_rotate (opts : gmap string value)
  : result (gmap string value) :=
  validate_degree I (get_argument rq "deg");;
  Ok (_get_rotate_options st rq ∪ opts).

(** The [if "region" in ops:] block. *)
Definition validate_region : result () :=
  validate_rectangle I (get_argument rq "rect").

(** The [if "watermark" in ops:] block on [url] and [text], the
    [watermark_img] and [watermark_txt] arguments. *)
Definition validate_watermark_args (url text : option string) : result () :=
  if match url with
     | None | Some "" => false
     | Some u => negb (startswith u "http://")
                 && negb (startswith u "https://")
     end
  then Raise (PilboxError DimensionsError "Unsupported protocol")
  else if match text with Some "" => true | _ => false end
  then Raise (PilboxError DimensionsError "Watermark text cannot be empty")
  else if match text, url with None, None => true | _, _ => false end
  then Raise (PilboxError DimensionsError
                "Watermark requires either watermark_img or watermark_txt")
  else Ok ().

Definition validate_watermark : result () :=
  validate_watermark_args (get_argument rq "watermark_img")
                          (get_argument rq "watermark_txt").

(** The argument checks of [validate_request], its lines after the five
    calls above: one block per operation named in the request, then
    [Image.validate_options] on the merged options. *)
Definition validate_arguments : result () :=
  let opts := _get_save_options st rq in
  ops ← _get_operations;
  opts ← (if mem "resize" ops then validate_resize opts else Ok opts);
  opts ← (if mem "rotate" ops then validate_rotate opts else Ok opts);
  (if mem "region" ops then validate_region else Ok ());;
  (if mem "watermark" ops then validate_watermark else Ok ());;
  validate_options I opts.

(** [ImageHandler.validate_request] *)
Definition validate_request : result () :=
  _validate_operation;;
  _validate_url;;
  _validate_signature;;
  _validate_client;;
  _validate_host;;
  validate_arguments.

(** What [validate_arguments] runs before it reaches the watermark block:
    the options merged so far, or the error of an earlier block. *)
Definition arguments_before_watermark : result (gmap string value) :=
  let opts := _get_save_options st rq in
  ops ← _get_operations;
  opts ← (if mem "resize" ops then validate_resize opts else Ok opts);
  opts ← (if mem "rotate" ops then validate_rotate opts else Ok opts);
  (if mem "region" ops then validate_region else Ok ());;
  Ok opts.

End Validation.

(** ** The handler: fetch, pipeline, headers and body *)

(** The calls the handler makes to its collaborators, in the order made. *)
Inductive Call : Type :=
| CFetch (url : option string)
| CImage (stream : bytes)
| CResize (w h : option string) (opts : gmap string value)
| CRotate (deg : option string) (opts : gmap string value)
| CRegion (rect : list string)
| CWatermark (pos : option string) (opts : gmap string value)
| CSave (opts : gmap string value).

(** The state of the handler object: the response headers set so far, the
    blocks written so far and the log of calls to the collaborators. *)
Record Handler : Type := {
  _headers : gmap string string;
  _write_buffer : list bytes;
  calls : list Call;
}.

(** A method of the handler: it changes the handler and returns or raises;
    what was done before a [raise] stays done. *)
Definition M (A : Type) : Type := Handler → result A * Handler.

#[global] Instance M_ret : MRet M := fun A a h => (Ok a, h).
#[global] Instance M_bind : MBind M := fun A B f m h =>
  match m h with
  | (Ok a, h') => f a h'
  | (Raise e, h') => (Raise e, h')
  end.

(** A computation without effect on the handler. *)
Definition lift {A} (r : result A) : M A := fun h => (r, h).

(** A call to a collaborator, logged before it answers. *)
Definition call {A} (c : Call) (r : result A) : M A := fun h =>
  (r, {| _headers := _headers h; _write_buffer := _write_buffer h;
         calls := calls h ++ [c] |}).

(** [RequestHandler.set_header]: a [None] value is a [TypeError]. *)
Definition set_header (k : string) (v : option string) : M () := fun h =>
  match v with
  | Some s => (Ok (), {| _headers := <[k := s]> (_headers h);
                         _write_buffer := _write_buffer h;
                         calls := calls h |})
  | None => (Raise (PyError "TypeError"), h)
  end.

(** [RequestHandler.write] *)
Definition write (block : bytes) : M () := fun h =>
  (Ok (), {| _headers := _headers h;
             _write_buffer := _write_buffer h ++ [block];
             calls := calls h |}).

(** [ImageHandler.FORWARD_HEADERS] *)
Definition FORWARD_HEADERS : list string :=
  ["Cache-Control"; "Expires"; "Last-Modified"].

(** [ImageHandler.OPERATIONS] *)
Definition OPERATIONS : list string :=
  ["region"; "resize"; "rotate"; "noop"; "watermark"].

(** [ImageHandler._FORMAT_TO_MIME] *)
Definition _FORMAT_TO_MIME : gmap string string :=
  {[ "gif" := "image/gif"; "jpeg" := "image/jpeg"; "jpg" := "image/jpeg";
     "png" := "image/png"; "webp" := "image/webp"; "tiff" := "image/tiff" ]}.

(** The blocks that [iter(lambda: outfile.read(n), b"")] yields from a
    stream holding [data]: [n] bytes at a time until a read is empty. *)
Fixpoint read_blocks (fuel n : nat) (data : bytes) : list bytes :=
  match fuel with
  | O => []
  | S fuel' =>
      match take n data with
      | [] => []
      | block => block :: read_blocks fuel' n (drop n data)
      end
  end.

Definition BLOCK_SIZE : nat := Z.to_nat 65536.

Section Handling.

Context (L : Lib) (I : ImageLib).
Variable st : Settings.
Variable rq : Request.

(** The lines of [fetch_image] before the client is called: the url to
    fetch, or the exception of [urlparse] or [urljoin]. *)
Definition fetch_url : result (option string) :=
  let url := get_argument rq "url" in
  if truthy (settings_get st "implicit_base_url") then
    host ← of_outcome (urlparse_hostname L url);
    if bool_decide (host = None)
    then of_outcome (urljoin L (settings_get st "implicit_base_url") url)
    else Ok url
  else Ok url.

(** [ImageHandler.fetch_image]: only the two exceptions named in the
    [except] clause become [FetchError]. *)
Definition fetch_image : M Response :=
  url ← lift fetch_url;
  outcome ← call (CFetch url) (Ok (client_fetch L st url));
  match outcome with
  | Fetched resp => mret resp
  | FetchFailed => lift (Raise (PilboxError FetchError ""))
  | FetchRaised cls => lift (Raise (PyError cls))
  end.

(** [ImageHandler._image_region] *)
Definition _image_region (image : Img I) : M (Img I) :=
  match get_argument rq "rect" with
  | None => lift (Raise (PyError "AttributeError"))
  | Some r =>
      let rect := split_comma r in
      call (CRegion rect) (Image_region I rect image)
  end.

(** [ImageHandler._image_resize] *)
Definition _image_resize (image : Img I) : M (Img I) :=
  let opts := _get_resize_options st rq in
  let w := get_argument rq "w" in
  let h := get_argument rq "h" in
  call (CResize w h opts) (Image_resize I w h opts image).

(** [ImageHandler._image_rotate] *)
Definition _image_rotate (image : Img I) : M (Img I) :=
  let opts := _get_rotate_options st rq in
  let deg := get_argument rq "deg" in
  call (CRotate deg opts) (Image_rotate I deg opts image).

(** [ImageHandler._image_watermark] *)
Definition _image_watermark (image : Img I) : M (Img I) :=
  let opts := _get_watermark_options st rq in
  let pos := get_argument rq "watermark_pos" in
  call (CWatermark pos opts) (Image_watermark I pos opts image).

(** [ImageHandler._image_save]: the output and the image as saving left
    it. *)
Definition _image_save (image : Img I) : M (bytes * Img I) :=
  let opts := _get_save_options st rq in
  call (CSave opts) (Image_save I opts image).

(** One turn of the [for operation in ops:] loop of [_process_response]. *)
Definition apply_operation (operation : string) (image : Img I)
  : M (Img I) :=
  if String.eqb operation "resize" then _image_resize image
  else if String.eqb operation "rotate" then _image_rotate image
  else if String.eqb operation "region" then _image_region image
  else if String.eqb operation "watermark" then _image_watermark image
  else mret image.

Fixpoint apply_operations (ops : list string) (image : Img I)
  : M (Img I) :=
  match ops with
  | [] => mret image
  | operation :: ops' =>
      image' ← apply_operation operation image;
      apply_operations ops' image'
  end.

(** [ImageHandler._process_response]: the output stream and its format,
    read from the image once it is saved. *)
Definition _process_response (resp : Response)
  : M (bytes * option string) :=
  ops ← lift (_get_operations st rq);
  if mem "noop" ops then mret (buffer resp, None)
  else
    image ← call (CImage (buffer resp)) (Image_new I (buffer resp));
    image ← apply_operations ops image;
    '(outfile, image) ← _image_save image;
    mret (outfile, Image_format I image).

(** [ImageHandler._set_headers] *)
Definition forward_header (hdrs : gmap string string) (k : string) : M () :=
  match hdrs !! k with
  | Some v => if String.eqb v "" then mret () else set_header k (Some v)
  | None => mret ()
  end.

Fixpoint forward_headers (hdrs : gmap string string) (ks : list string)
  : M () :=
  match ks with
  | [] => mret ()
  | k :: ks' => forward_header hdrs k;; forward_headers hdrs ks'
  end.

Definition format_requested : bool :=
  truthy (of_arg (get_argument rq "fmt"))
  || truthy (settings_get st "format")
  || truthy (settings_get st "content_type_from_image").

Definition _set_headers (hdrs : gmap string string)
    (file_format : option string) : M () :=
  (if truthy (of_arg file_format) && format_requested then
     set_header "Content-Type"
       (f ← file_format; _FORMAT_TO_MIME !! lower f)
   else
     match hdrs !! "Content-Type" with
     | Some v => set_header "Content-Type" (Some v)
     | None => mret ()
     end);;
  forward_headers hdrs FORWARD_HEADERS.

Fixpoint write_blocks (blocks : list bytes) : M () :=
  match blocks with
  | [] => mret ()
  | block :: blocks' => write block;; write_blocks blocks'
  end.

(** [ImageHandler.render_image] *)
Definition render_image (resp : Response) : M () :=
  '(outfile, outfile_format) ← _process_response resp;
  _set_headers (headers resp) outfile_format;;
  write_blocks (read_blocks (S (length outfile)) BLOCK_SIZE outfile).

(** [ImageHandler.get] *)
Definition get : M () :=
  lift (validate_request L I st rq);;
  resp ← fetch_image;
  render_image resp.

End Handling.

(** ** Shutdown *)

Module Shutdown.

Local Open Scope Q_scope.

Definition MAX_WAIT_SECONDS_BEFORE_SHUTDOWN : Q := 5.

(** The server and its io loop: whether the server still accepts
    connections ([server.stop()] not called), whether the loop runs
    ([io_loop.stop()] not called), the timeout under which [stop_loop]
    waits (the time [add_timeout] was given and the [deadline] argument),
    the time at which the loop was stopped, and the readings of
    [time.time()] at the runs of [stop_loop] so far, the latest first. *)
Record World : Type := {
  accepting : bool;
  loop_running : bool;
  timeout : option (Q * Q);
  stopped_at : option Q;
  polls : list Q;
}.

(** An iteration of the io loop: the time read at it, by the loop to tell
    whether a timeout is due and by [stop_loop] as [now], and the work in
    flight, the callbacks and timeouts of the loop other than the one of
    [stop_loop]. *)
Record Tick : Type := {
  now : Q;
  in_flight : nat;
}.

(** [stop_loop(deadline)] at tick [k]: the test on the work in flight is
    commented out in the source, the deadline alone decides. *)
Definition stop_loop (k : Tick) (deadline : Q) (w : World) : World :=
  if negb (Qle_bool deadline (now k)) then
    {| accepting := accepting w; loop_running := loop_running w;
       timeout := Some (now k + 1, deadline);
       stopped_at := stopped_at w; polls := now k :: polls w |}
  else
    {| accepting := accepting w; loop_running := false;
       timeout := None; stopped_at := Some (now k);
       polls := now k :: polls w |}.

(** [shutdown()]: [t] is the reading of [time.time()] that fixes the
    deadline, [k] the tick of the first run of [stop_loop]. *)
Definition shutdown (t : Q) (k : Tick) (w : World) : World :=
  stop_loop k (t + MAX_WAIT_SECONDS_BEFORE_SHUTDOWN)
    {| accepting := false; loop_running := loop_running w;
       timeout := timeout w; stopped_at := stopped_at w;
       polls := polls w |}.

(** The io loop while it runs: at a tick it calls back the timeout of
    [stop_loop] if the time the timeout was set for has come, and leaves it
    pending if not. *)
Fixpoint run_loop (ticks : list Tick) (w : World) : World :=
  match ticks with
  | [] => w
  | k :: ticks' =>
      match loop_running w, timeout w with
      | true, Some (due, deadline) =>
          if Qle_bool due (now k) then
            run_loop ticks'
              (stop_loop k deadline
                 {| accepting := accepting w; loop_running := true;
                    timeout := None; stopped_at := stopped_at w;
                    polls := polls w |})
          else run_loop ticks' w
      | _, _ => w
      end
  end.

(** [sig_handler]: the loop runs [shutdown] and then goes on. *)
Definition sig_handler (t : Q) (k : Tick) (ticks : list Tick) (w : World)
  : World :=
  run_loop ticks (shutdown t k w).

(** A loop that wakes exactly when the timeout is due: each tick comes one
    second after the one before. *)
Fixpoint punctual (prev : Q) (ticks : list Tick) : Prop :=
  match ticks with
  | [] => True
  | k :: ticks' => now k == prev + 1 ∧ punctual (now k) ticks'
  end.

(** Readings, the latest first, each at least one second after the one
    before it, and each exactly one second after it. *)
Fixpoint spaced (ps : list Q) : Prop :=
  match ps with
  | [] => True
  | q :: rest =>
      match rest with
      | [] => True
      | p :: _ => p + 1 <= q
      end ∧ spaced rest
  end.

Fixpoint every_second (ps : list Q) : Prop :=
  match ps with
  | [] => True
  | q :: rest =>
      match rest with
      | [] => True
      | p :: _ => q == p + 1
      end ∧ every_second rest
  end.

(** The states of the drain. *)
Inductive Phase : Type := RUNNING | DRAINING | STOPPED.

Definition phase (w : World) : Phase :=
  if loop_running w then (if accepting w then RUNNING else DRAINING)
  else STOPPED.

(** The times of the ticks, the work in flight left out. *)
Definition times (ticks : list Tick) : list Q := now <$> ticks.

End Shutdown.

(** ** The statements of the design document *)

(** The four operation families with options. *)
Inductive Family : Type := Resize | Rotate | Watermark | Save.

Definition fields_of (f : Family) : list (string * string) :=
  match f with
  | Resize => resize_fields
  | Rotate => rotate_fields
  | Watermark => watermark_fields
  | Save => save_fields
  end.

Definition family_options (st : Settings) (rq : Request) (f : Family)
  : gmap string value :=
  match f with
  | Resize => _get_resize_options st rq
  | Rotate => _get_rotate_options st rq
  | Watermark => _get_watermark_options st rq
  | Save => _get_save_options st rq
  end.

(** The request argument that option [k] of family [f] reads, if [k] is an
    option of [f]. *)
Definition argument_of (f : Family) (k : string) : option string :=
  (list_to_map (fields_of f) : gmap string string) !! k.

(** The merge rule in the words of the design document: a non-empty value
    of the request, else the default of the settings, else no entry. *)
Definition merge_rule (st : Settings) (rq : Request) (k a : string)
  : option value :=
  match get_argument rq a with
  | Some (String c s) => Some (VStr (String c s))
  | _ => match settings_get st k with
         | VNone => None
         | v => Some v
         end
  end.

(** A request and settings on which the merge rule of the document and the
    code part: [mode] is sent empty, [retain] is neither sent nor set. *)
Definition merge_request : Request :=
  {| arguments := {[ "mode" := ""; "bg" := "fff" ]}; uri_query := "" |}.

Definition merge_settings : Settings :=
  {[ "mode" := VStr "crop"; "filter" := VStr "antialias" ]}.

(** The handler with more calls in its log, with other headers, with more
    blocks written. *)
Definition logged (h : Handler) (cs : list Call) : Handler :=
  {| _headers := _headers h; _write_buffer := _write_buffer h;
     calls := calls h ++ cs |}.

Definition with_headers (h : Handler) (m : gmap string string) : Handler :=
  {| _headers := m; _write_buffer := _write_buffer h; calls := calls h |}.

Definition wrote (h : Handler) (blocks : list bytes) : Handler :=
  {| _headers := _headers h; _write_buffer := _write_buffer h ++ blocks;
     calls := calls h |}.

(** What [forward_headers] leaves in the response headers [m]. *)
Definition forwarded (hdrs : gmap string string) (ks : list string)
    (m : gmap string string) : gmap string string :=
  foldl (λ m k, match hdrs !! k with
                | Some (String c v) => <[k := String c v]> m
                | _ => m
                end) m ks.

Section Pipeline_statement.

Context (I : ImageLib).
Variable st : Settings.
Variable rq : Request.

(** The call that stands for an operation of the list, if any. *)
Definition transform_call (operation : string) : option Call :=
  if String.eqb operation "resize" then
    Some (CResize (get_argument rq "w") (get_argument rq "h")
                  (_get_resize_options st rq))
  else if String.eqb operation "rotate" then
    Some (CRotate (get_argument rq "deg") (_get_rotate_options st rq))
  else if String.eqb operation "region" then
    r ← get_argument rq "rect"; Some (CRegion (split_comma r))
  else if String.eqb operation "watermark" then
    Some (CWatermark (get_argument rq "watermark_pos")
                     (_get_watermark_options st rq))
  else None.

(** What an operation of the list makes of the image. *)
Definition transform (operation : string) (image : Img I)
  : result (Img I) :=
  if String.eqb operation "resize" then
    Image_resize I (get_argument rq "w") (get_argument rq "h")
                 (_get_resize_options st rq) image
  else if String.eqb operation "rotate" then
    Image_rotate I (get_argument rq "deg") (_get_rotate_options st rq) image
  else if String.eqb operation "region" then
    match get_argument rq "rect" with
    | None => Raise (PyError "AttributeError")
    | Some r => Image_region I (split_comma r) image
    end
  else if String.eqb operation "watermark" then
    Image_watermark I (get_argument rq "watermark_pos")
                    (_get_watermark_options st rq) image
  else Ok image.

(** The operations applied one after the other to the one image. *)
Fixpoint transforms (ops : list string) (image : Img I)
  : result (Img I) :=
  match ops with
  | [] => Ok image
  | operation :: ops' =>
      image' ← transform operation image; transforms ops' image'
  end.

(** The calls made while [ops] are applied, up to the first that raises. *)
Fixpoint transforms_log (ops : list string) (image : Img I) : list Call :=
  match ops with
  | [] => []
  | operation :: ops' =>
      option_list (transform_call operation)
      ++ match transform operation image with
         | Ok image' => transforms_log ops' image'
         | Raise _ => []
         end
  end.

(** The calls of a whole run of the pipeline on [ops]: one decode, the
    transform of each operation in the order of the list, one encode. *)
Definition pipeline_calls (stream : bytes) (ops : list string)
  : list Call :=
  CImage stream :: omap transform_call ops
  ++ [CSave (_get_save_options st rq)].

End Pipeline_statement.

(** The precedence of the content type in the words of the design document:
    from the declared output format through the table when a format was
    asked for, configured, or the flag is set; the upstream header
    otherwise. *)
Definition content_type_rule (st : Settings) (rq : Request)
    (hdrs : gmap string string) (file_format : option string)
  : option string :=
  if format_requested st rq then f ← file_format; _FORMAT_TO_MIME !! lower f
  else hdrs !! "Content-Type".

(** A handler that has done nothing yet. *)
Definition fresh : Handler :=
  {| _headers := ∅; _write_buffer := []; calls := [] |}.

(** A request that asks for [png] output and names [noop], with the
    headers of an upstream answer. *)
Definition noop_png_request : Request :=
  {| arguments := {[ "op" := "noop"; "fmt" := "png";
                     "url" := "http://example.com/a.jpg" ]};
     uri_query := "" |}.

Definition upstream_headers : gmap string string :=
  {[ "Content-Type" := "image/jpeg"; "Cache-Control" := "max-age=60";
     "Expires" := "" ]}.


(** The request names [watermark] and passes every check that runs before
    the watermark block, leaving the merged options [opts]. *)
Definition reaches_watermark (L : Lib) (I : ImageLib) (st : Settings)
    (rq : Request) (opts : gmap string value) : Prop :=
  _validate_operation st rq = Ok ()
  ∧ _validate_url st rq = Ok ()
  ∧ _validate_signature L st rq = Ok ()
  ∧ _validate_client st rq = Ok ()
  ∧ _validate_host L st rq = Ok ()
  ∧ (∃ ops, _get_operations st rq = Ok ops ∧ "watermark" ∈ ops)
  ∧ arguments_before_watermark L I st rq = Ok opts.

(** The watermark rule in the words of the design document: one of the two
    arguments is present, [watermark_img] if given uses [http://] or
    [https://], [watermark_txt] if given is not empty. *)
Definition watermark_rule (url text : option string) : bool :=
  (bool_decide (is_Some url) || bool_decide (is_Some text))
  && match url with
     | Some u => startswith u "http://" || startswith u "https://"
     | None => true
     end
  && match text with
     | Some "" => false
     | _ => true
     end.

(** ** Stand-ins for the collaborators

    Plain collaborators on which the handler can be run: every signature
    verifies, a url with a scheme has host [example.com], [int] reads
    decimal digits, every fetch answers two bytes with [upstream_headers],
    the argument validators accept, and an image is the list of the
    transforms applied to it. *)

Fixpoint digits (s : string) (acc : Z) : option Z :=
  match s with
  | EmptyString => Some acc
  | String c s' =>
      let n := Z.of_nat (nat_of_ascii c) in
      if (48 <=? n) && (n <=? 57) then digits s' (10 * acc + (n - 48))
      else None
  end.

Definition decimal (s : string) : option Z :=
  match s with
  | EmptyString => None
  | _ => digits s 0
  end.

Definition plain_lib : Lib := {|
  verify_signature := λ _ _, true;
  urlparse_hostname := λ url,
    match url with
    | Some u => if startswith u "http://" || startswith u "https://"
                then Returns (Some "example.com") else Returns None
    | None => Returns None
    end;
  urljoin := λ base url,
    match base, url with
    | VStr b, Some u => Returns (Some (b +:+ u))
    | _, _ => Returns url
    end;
  py_int := decimal;
  client_fetch := λ _ _,
    Fetched {| buffer := [Byte.x01; Byte.x02];
               headers := upstream_headers |};
|}.

Definition plain_image : ImageLib := {|
  Img := list string;
  validate_dimensions := λ _ _, Ok ();
  validate_degree := λ _, Ok ();
  validate_rectangle := λ _, Ok ();
  validate_options := λ _, Ok ();
  Image_new := λ _, Ok [];
  Image_resize := λ _ _ _ image, Ok (image ++ ["resize"]);
  Image_rotate := λ _ _ image, Ok (image ++ ["rotate"]);
  Image_region := λ _ image, Ok (image ++ ["region"]);
  Image_watermark := λ _ _ image, Ok (image ++ ["watermark"]);
  Image_save := λ _ image, Ok ([Byte.x03], image);
  Image_format := λ _, Some "PNG";
|}.

(** Settings with the stock operations and limits. *)
Definition stock_settings : Settings :=
  {[ "allowed_operations" := VList OPERATIONS; "max_operations" := VInt 10;
     "max_resize_width" := VInt 15000; "max_resize_height" := VInt 15000 ]}.

(** A request made of the given arguments. *)
Definition request_of (args : list (string * string)) : Request :=
  {| arguments := list_to_map args; uri_query := "" |}.

(** A watermark request whose [watermark_img] is sent empty. *)
Definition empty_watermark_img_request : Request :=
  request_of [("op", "watermark"); ("url", "http://example.com/a.jpg");
              ("watermark_img", "")].

(** A request that repeats one operation three times, under settings that
    allow two operations. *)
Definition repeated_request : Request :=
  request_of [("op", "resize,resize,resize");
              ("url", "http://example.com/a.jpg"); ("w", "10")].

Definition two_operations_settings : Settings :=
  <["max_operations" := VInt 2]> stock_settings.

(** The stop rule in the words of the design document: the drain ends at a
    poll when the deadline has passed or no work is in flight. *)
Definition stop_rule (k : Shutdown.Tick) (deadline : Q) : bool :=
  Qle_bool deadline (Shutdown.now k) || Nat.eqb (Shutdown.in_flight k) 0.

(** A server at work, before any signal. *)
Definition serving : Shutdown.World :=
  {| Shutdown.accepting := true; Shutdown.loop_running := true;
     Shutdown.timeout := None; Shutdown.stopped_at := None;
     Shutdown.polls := [] |}.

(** Ticks at the given times on a loop with no work in flight. *)
Definition idle_at (t : Q) : Shutdown.Tick :=
  {| Shutdown.now := t; Shutdown.in_flight := 0 |}.

(** Requests and an upstream answer on which the statements are tried. *)
Definition upstream_response : Response :=
  {| buffer := [Byte.x01; Byte.x02]; headers := upstream_headers |}.

Definition resize_rotate_request : Request :=
  request_of [("op", "resize,rotate"); ("url", "http://example.com/a.jpg");
              ("w", "10"); ("deg", "90"); ("fmt", "png")].


Definition blur_request : Request :=
  request_of [("op", "blur"); ("url", "http://example.com/a.jpg")].

Definition no_watermark_source_request : Request :=
  request_of [("op", "watermark"); ("url", "http://example.com/a.jpg")].

Definition empty_watermark_txt_request : Request :=
  request_of [("op", "watermark"); ("url", "http://example.com/a.jpg");
              ("watermark_img", "http://example.com/logo.png");
              ("watermark_txt", "")].

(** A watermark request with empty text and a watermark image that is not
    fetched over http. *)
Definition ftp_watermark_request : Request :=
  request_of [("op", "watermark"); ("url", "http://example.com/a.jpg");
              ("watermark_img", "ftp://example.com/logo.png");
              ("watermark_txt", "")].

(** Five ticks, one second apart, after a first tick at time [0]. *)
Definition five_ticks : list Shutdown.Tick :=
  [idle_at 1; idle_at 2; idle_at 3; idle_at 4; idle_at 5].

(** ** The application and its settings *)

(** The options that [PilboxApplication.__init__] copies into the settings
    under their own name; [allowed_operations] is copied apart. *)
Definition SETTINGS_OPTIONS : list string :=
  ["debug"; "client_name"; "client_key"; "allowed_hosts"; "max_operations";
   "max_resize_height"; "max_resize_width"; "background"; "expand";
   "filter"; "format"; "mode"; "operation"; "optimize"; "position";
   "progressive"; "quality"; "max_requests"; "timeout"; "implicit_base_url";
   "ca_certs"; "user_agent"; "validate_cert"; "content_type_from_image";
   "proxy_host"; "proxy_port"; "preserve_exif"].

(** [set(v)] for a value: a collection of strings as it is (order and
    repeats play no part where the settings are read), a string as its
    characters, anything else a [TypeError]. *)
Definition py_set (v : value) : result value :=
  match v with
  | VList l => Ok (VList l)
  | VStr s => Ok (VList (chars s))
  | _ => Raise (PyError "TypeError")
  end.

(** [PilboxApplication.__init__] up to the call of the tornado constructor:
    the settings dictionary built from the parsed [options] (an option left
    unset is [None]) and the keyword arguments, or the exception raised.
    [pycurl] tells whether the module could be imported. *)
Definition PilboxApplication_settings (pycurl : bool)
    (options kwargs : gmap string value) : result Settings :=
  let allowed := settings_get options "allowed_operations" in
  allowed ← py_set (if truthy allowed then allowed else VList OPERATIONS);
  let settings : gmap string value :=
    kwargs ∪ <["allowed_operations" := allowed]>
               (list_to_map ((λ k, (k, settings_get options k))
                               <$> SETTINGS_OPTIONS)) in
  if truthy (settings_get settings "proxy_host") && negb pycurl
  then Raise (PyError "Exception")
  else Ok settings.

(** ** Further notions for statements *)

(** [",".join(l)] *)
Fixpoint join_comma (l : list string) : string :=
  match l with
  | [] => ""
  | [x] => x
  | x :: l' => x +:+ "," +:+ join_comma l'
  end.

(** [s] holds a comma. *)
Fixpoint has_comma (s : string) : bool :=
  match s with
  | EmptyString => false
  | String c s' => Ascii.eqb c ","%char || has_comma s'
  end.

Definition is_fetch (c : Call) : bool :=
  match c with
  | CFetch _ => true
  | _ => false
  end.

(** A dimension argument that the resize block lets through under [limit]:
    absent, empty, or an integer no greater than the limit. *)
Definition within (L : Lib) (a : option string) (limit : Z) : Prop :=
  a = None ∨ a = Some "" ∨ ∃ s n, a = Some s ∧ py_int L s = Some n ∧ n <= limit.

(** The headers that [_set_headers] may write. *)
Definition WRITTEN_HEADERS : list string := "Content-Type" :: FORWARD_HEADERS.


Definition broken_image : ImageLib := {|
  Img := Img plain_image;
  validate_dimensions := validate_dimensions plain_image;
  validate_degree := validate_degree plain_image;
  validate_rectangle := validate_rectangle plain_image;
  validate_options := validate_options plain_image;
  Image_new := λ _, Raise (ImageError "ImageFormatError" "");
  Image_resize := Image_resize plain_image;
  Image_rotate := Image_rotate plain_image;
  Image_region := Image_region plain_image;
  Image_watermark := Image_watermark plain_image;
  Image_save := Image_save plain_image;
  Image_format := Image_format plain_image;
|}.

Definition sample_options : gmap string value :=
  {[ "max_operations" := VInt 10; "max_resize_width" := VInt 15000;
     "max_resize_height" := VInt 15000; "retain" := VInt 50;
     "validate_cert" := VBool true ]}.

Definition sample_kwargs : gmap string value :=
  {[ "client_name" := VStr "sample"; "allowed_hosts" := VList ["example.com"] ]}.

Definition built_settings : Settings :=
  match PilboxApplication_settings true sample_options ∅ with
  | Ok st => st
  | Raise _ => ∅
  end.

Definition built_settings_kwargs : Settings :=
  match PilboxApplication_settings true sample_options sample_kwargs with
  | Ok st => st
  | Raise _ => ∅
  end.

Definition sample_client_request : Request :=
  request_of [("op", "resize"); ("url", "http://example.com/a.jpg");
              ("w", "10"); ("client", "sample"); ("bg", "fff")].

Definition trailing_comma_request : Request :=
  request_of [("op", "resize,"); ("url", "http://example.com/a.jpg");
              ("w", "10")].

Definition wide_request : Request :=
  request_of [("op", "resize"); ("url", "http://example.com/a.jpg");
              ("w", "20000")].

(** A stand-in whose [urlparse] raises [ValueError] on a url with an open
    bracket, as the standard library does on [http://[], with a request of
    such a url and settings that configure an implicit base url. *)
Definition strict_lib : Lib := {|
  verify_signature := verify_signature plain_lib;
  urlparse_hostname := λ url,
    match url with
    | Some u => if contains u "[" && negb (contains u "]")
                then Throws "ValueError"
                else urlparse_hostname plain_lib url
    | None => Returns None
    end;
  urljoin := urljoin plain_lib;
  py_int := py_int plain_lib;
  client_fetch := client_fetch plain_lib;
|}.

Definition bracket_request : Request :=
  request_of [("op", "resize"); ("url", "http://["); ("w", "10")].

Definition base_url_settings : Settings :=
  <["implicit_base_url" := VStr "http://example.com"]> stock_settings.

(** ** The Python helpers on small inputs *)

Example split_comma_list :
  split_comma "resize,rotate" = ["resize"; "rotate"].
Proof. reflexivity. Qed.

Example split_comma_empty : split_comma "" = [""].
Proof. reflexivity. Qed.

Example split_comma_blank_fields :
  split_comma "resize,,rotate," = ["resize"; ""; "rotate"; ""].
Proof. reflexivity. Qed.

Example lower_format : lower "JPEG" = "jpeg".
Proof. reflexivity. Qed.

Example startswith_scheme :
  startswith "https://example.com/a.jpg" "https://" = true
  ∧ startswith "ftp://example.com/a.jpg" "http://" = false.
Proof. split; reflexivity. Qed.

Example operations_default :
  _get_operations ∅ (request_of []) = Ok ["resize"].
Proof. vm_compute. reflexivity. Qed.

Example read_blocks_three :
  read_blocks 4 2 [Byte.x01; Byte.x02; Byte.x03]
  = [[Byte.x01; Byte.x02]; [Byte.x03]].
Proof. reflexivity. Qed.

(** ** Option resolution: proofs *)

Lemma lookup_get_options st (opts : gmap string value) k :
  _get_options st opts !! k =
  (λ v, match v with VNone => settings_get st k | _ => v end) <$> opts !! k.
Proof.
  unfold _get_options. rewrite map_lookup_imap.
  by destruct (opts !! k).
Qed.

Lemma lookup_dict_of_args rq fields k :
  dict_of_args rq fields !! k =
  (λ a, of_arg (get_argument rq a))
    <$> (list_to_map fields : gmap string string) !! k.
Proof.
  unfold dict_of_args.
  induction fields as [|[k' a] fields IH]; simpl.
  - by rewrite !lookup_empty.
  - destruct (decide (k' = k)) as [->|Hne].
    + by rewrite !lookup_insert_eq.
    + by rewrite !lookup_insert_ne.
Qed.

Lemma family_options_unfold st rq f :
  family_options st rq f = _get_options st (dict_of_args rq (fields_of f)).
Proof. by destruct f. Qed.

(** C1, as amended.  In the resolved options of every family, an option
    holds the value of its request argument whenever the request has that
    argument, the empty string included; it holds the settings value under
    the option's name when the request lacks the argument; it holds [None]
    when the settings lack it too.  The keys are those of the family: no
    option is left out. *)
Theorem get_options_merge st rq f k :
  family_options st rq f !! k =
  a ← argument_of f k;
  Some (match get_argument rq a with
        | Some s => VStr s
        | None => settings_get st k
        end).
Proof.
  rewrite family_options_unfold, lookup_get_options, lookup_dict_of_args.
  unfold argument_of.
  destruct (list_to_map (fields_of f) !! k) as [a|]; simpl; [|done].
  by destruct (get_argument rq a).
Qed.

(** C1, as stated, fails: an argument sent empty is kept and hides the
    default of the settings, and an option with neither argument nor default
    is present with value [None], where the merge rule of the document gives
    the default and no entry. *)
Lemma get_options_merge_counterexample :
  let resolved := _get_resize_options merge_settings merge_request in
  resolved !! "mode" = Some (VStr "")
  ∧ resolved !! "mode" ≠ merge_rule merge_settings merge_request "mode" "mode"
  ∧ resolved !! "retain" = Some VNone
  ∧ resolved !! "retain"
    ≠ merge_rule merge_settings merge_request "retain" "retain".
Proof. vm_compute. repeat split; congruence. Qed.

(** ** The handler monad: how computations run *)

Lemma bind_run {A B} (m : M A) (f : A → M B) h :
  (m ≫= f) h =
  match m h with
  | (Ok a, h') => f a h'
  | (Raise e, h') => (Raise e, h')
  end.
Proof. reflexivity. Qed.

Lemma logged_nil h : logged h [] = h.
Proof. destruct h. unfold logged. simpl. by rewrite app_nil_r. Qed.

Lemma logged_app h cs cs' : logged (logged h cs) cs' = logged h (cs ++ cs').
Proof. unfold logged. simpl. by rewrite app_assoc. Qed.

Lemma call_run {A} c (r : result A) h : call c r h = (r, logged h [c]).
Proof. reflexivity. Qed.

Section Pipeline_proofs.

Context (I : ImageLib).
Variable st : Settings.
Variable rq : Request.

Lemma apply_operation_run operation image h :
  apply_operation I st rq operation image h =
  (transform I st rq operation image,
   logged h (option_list (transform_call st rq operation))).
Proof.
  unfold apply_operation, transform, transform_call.
  repeat case_match; simplify_eq/=;
    rewrite ?logged_nil; try reflexivity;
    unfold _image_region; repeat case_match; simplify_eq/=;
    rewrite ?logged_nil; reflexivity.
Qed.

Lemma apply_operations_run ops : ∀ image h,
  apply_operations I st rq ops image h =
  (transforms I st rq ops image,
   logged h (transforms_log I st rq ops image)).
Proof.
  induction ops as [|operation ops IH]; intros image h; simpl.
  - by rewrite logged_nil.
  - rewrite bind_run, apply_operation_run.
    destruct (transform I st rq operation image) as [image'|e]; simpl.
    + by rewrite IH, logged_app.
    + by rewrite app_nil_r.
Qed.

Lemma transforms_log_prefix ops : ∀ image,
  transforms_log I st rq ops image `prefix_of` omap (transform_call st rq) ops.
Proof.
  induction ops as [|operation ops IH]; intros image.
  - done.
  - assert (Hc : omap (transform_call st rq) (operation :: ops) =
                 option_list (transform_call st rq operation)
                 ++ omap (transform_call st rq) ops).
    { simpl. by destruct (transform_call st rq operation). }
    rewrite Hc. cbn [transforms_log]. apply prefix_app.
    destruct (transform I st rq operation image); [apply IH|].
    apply prefix_nil.
Qed.

Lemma transforms_log_complete ops : ∀ image image',
  transforms I st rq ops image = Ok image' →
  transforms_log I st rq ops image = omap (transform_call st rq) ops.
Proof.
  induction ops as [|operation ops IH]; intros image image' H; simpl in *.
  - done.
  - destruct (transform I st rq operation image) as [image1|e] eqn:E;
      simpl in H; [|done].
    rewrite (IH _ _ H). by destruct (transform_call st rq operation).
Qed.

End Pipeline_proofs.

Section Pipeline_claims.

Context (I : ImageLib).
Variable st : Settings.
Variable rq : Request.

Lemma process_response_run resp h ops :
  _get_operations st rq = Ok ops → mem "noop" ops = false →
  _process_response I st rq resp h =
  (image0 ← Image_new I (buffer resp);
   image ← transforms I st rq ops image0;
   '(outfile, saved) ← Image_save I (_get_save_options st rq) image;
   Ok (outfile, Image_format I saved),
   logged h
     (CImage (buffer resp) ::
      match Image_new I (buffer resp) with
      | Raise _ => []
      | Ok image0 =>
          transforms_log I st rq ops image0
          ++ match transforms I st rq ops image0 with
             | Raise _ => []
             | Ok _ => [CSave (_get_save_options st rq)]
             end
      end)).
Proof.
  intros Hops Hnoop. unfold _process_response.
  rewrite bind_run. unfold lift. rewrite Hops, Hnoop.
  rewrite bind_run, call_run.
  destruct (Image_new I (buffer resp)) as [image0|e]; simpl; [|done].
  rewrite bind_run, apply_operations_run.
  destruct (transforms I st rq ops image0) as [image|e]; simpl.
  - rewrite bind_run. unfold _image_save. rewrite call_run.
    rewrite !logged_app. simpl.
    by destruct (Image_save I (_get_save_options st rq) image)
      as [[outfile saved]|e].
  - by rewrite logged_app, app_nil_r.
Qed.

(** C7.  When the operation list holds no [noop], the pipeline opens the
    fetched bytes as an image once, first; it then calls the transform of
    each operation of the list, every occurrence and in the order of the
    list, each on the image the one before left; it saves once, last.  The
    calls made are always an initial part of this sequence, headed by the
    decode, and they are the whole of it whenever the pipeline returns;
    the pipeline returns exactly what decode, transforms and save give in
    turn, the format being that of the image as saving left it.  For [resize,rotate] the calls are decode, resize, rotate,
    save. *)
Theorem pipeline_order resp h ops :
  _get_operations st rq = Ok ops →
  "noop" ∉ ops →
  ∃ done,
    calls (_process_response I st rq resp h).2 = calls h ++ done
    ∧ done `prefix_of` pipeline_calls st rq (buffer resp) ops
    ∧ head done = Some (CImage (buffer resp))
    ∧ (_process_response I st rq resp h).1 =
        (image0 ← Image_new I (buffer resp);
         image ← transforms I st rq ops image0;
         '(outfile, saved) ← Image_save I (_get_save_options st rq) image;
         Ok (outfile, Image_format I saved))
    ∧ (∀ out, (_process_response I st rq resp h).1 = Ok out →
         done = pipeline_calls st rq (buffer resp) ops)
    ∧ pipeline_calls st rq (buffer resp) ["resize"; "rotate"] =
        [CImage (buffer resp);
         CResize (get_argument rq "w") (get_argument rq "h")
                 (_get_resize_options st rq);
         CRotate (get_argument rq "deg") (_get_rotate_options st rq);
         CSave (_get_save_options st rq)].
Proof.
  intros Hops Hnoop.
  assert (Hmem : mem "noop" ops = false).
  { unfold mem. by apply bool_decide_eq_false. }
  rewrite (process_response_run resp h ops Hops Hmem).
  eexists. split; [reflexivity|]. simpl.
  split; [|split; [done|split; [done|split; [|done]]]].
  - unfold pipeline_calls. apply prefix_cons.
    destruct (Image_new I (buffer resp)) as [image0|e];
      [|apply prefix_nil].
    destruct (transforms I st rq ops image0) as [image|e] eqn:Ht.
    + by rewrite (transforms_log_complete _ _ _ _ _ _ Ht).
    + rewrite app_nil_r. apply prefix_app_r, transforms_log_prefix.
  - intros out Hout. unfold pipeline_calls. f_equal.
    destruct (Image_new I (buffer resp)) as [image0|e];
      simpl in Hout; [|done].
    destruct (transforms I st rq ops image0) as [image|e] eqn:Ht;
      simpl in Hout; [|done].
    by rewrite (transforms_log_complete _ _ _ _ _ _ Ht).
Qed.

End Pipeline_claims.

(** ** Headers and body: proofs *)

Lemma with_headers_id h : with_headers h (_headers h) = h.
Proof. by destruct h. Qed.

Lemma wrote_nil h : wrote h [] = h.
Proof. destruct h. unfold wrote. simpl. by rewrite app_nil_r. Qed.

Lemma forward_header_run hdrs k h :
  forward_header hdrs k h =
  (Ok (), with_headers h (forwarded hdrs [k] (_headers h))).
Proof.
  unfold forward_header, forwarded. simpl.
  destruct (hdrs !! k) as [[|c v]|]; simpl;
    by rewrite ?with_headers_id.
Qed.

Lemma forward_headers_run hdrs ks : ∀ h,
  forward_headers hdrs ks h =
  (Ok (), with_headers h (forwarded hdrs ks (_headers h))).
Proof.
  induction ks as [|k ks IH]; intros h; simpl.
  - by rewrite with_headers_id.
  - rewrite bind_run, forward_header_run, IH. by destruct h.
Qed.

Lemma lookup_forwarded hdrs ks : ∀ m k,
  forwarded hdrs ks m !! k =
  if decide (k ∈ ks) then
    match hdrs !! k with
    | Some (String c v) => Some (String c v)
    | _ => m !! k
    end
  else m !! k.
Proof.
  induction ks as [|a ks IH]; intros m k.
  - by rewrite decide_False by apply not_elem_of_nil.
  - change (forwarded hdrs (a :: ks) m)
      with (forwarded hdrs ks (forwarded hdrs [a] m)).
    rewrite IH. unfold forwarded at 1 2. simpl.
    destruct (decide (k = a)) as [->|Hne].
    + rewrite (decide_True (P := a ∈ a :: ks)) by (apply elem_of_cons; by left).
      destruct (hdrs !! a) as [[|c v]|]; rewrite ?lookup_insert_eq;
        by case_decide.
    + destruct (decide (k ∈ ks)) as [Hin|Hin].
      * rewrite decide_True by (apply elem_of_cons; by right).
        destruct (hdrs !! a) as [[|c v]|]; by rewrite ?lookup_insert_ne.
      * rewrite decide_False by (rewrite elem_of_cons; tauto).
        destruct (hdrs !! a) as [[|c v]|]; by rewrite ?lookup_insert_ne.
Qed.

Lemma write_blocks_run blocks : ∀ h,
  write_blocks blocks h = (Ok (), wrote h blocks).
Proof.
  induction blocks as [|b blocks IH]; intros h; simpl.
  - by rewrite wrote_nil.
  - rewrite bind_run. unfold write at 1. rewrite IH.
    unfold wrote. simpl. by rewrite <- app_assoc.
Qed.

Lemma read_blocks_concat n fuel : ∀ data,
  (0 < n)%nat → (length data < fuel)%nat →
  concat (read_blocks fuel n data) = data.
Proof.
  induction fuel as [|fuel IH]; intros data Hn Hlen; [lia|].
  simpl. destruct (take n data) as [|b block] eqn:Ht.
  - destruct data as [|x data]; [done|].
    destruct n; [lia|]. done.
  - simpl. rewrite IH; [|done|].
    + transitivity (take n data ++ drop n data);
        [by rewrite Ht | apply take_drop].
    + rewrite length_drop. destruct data; [by destruct n|]. simpl in *. lia.
Qed.

Lemma BLOCK_SIZE_pos : (0 < BLOCK_SIZE)%nat.
Proof. unfold BLOCK_SIZE. lia. Qed.

Lemma set_headers_run st rq hdrs file_format h :
  _set_headers st rq hdrs file_format h =
  if truthy (of_arg file_format) && format_requested st rq then
    match f ← file_format; _FORMAT_TO_MIME !! lower f with
    | Some mime =>
        (Ok (), with_headers h
                  (forwarded hdrs FORWARD_HEADERS
                     (<["Content-Type" := mime]> (_headers h))))
    | None => (Raise (PyError "TypeError"), h)
    end
  else
    (Ok (), with_headers h
              (forwarded hdrs FORWARD_HEADERS
                 match hdrs !! "Content-Type" with
                 | Some v => <["Content-Type" := v]> (_headers h)
                 | None => _headers h
                 end)).
Proof.
  unfold _set_headers. rewrite bind_run.
  destruct (truthy (of_arg file_format) && format_requested st rq).
  - destruct (f ← file_format; _FORMAT_TO_MIME !! lower f) as [mime|];
      unfold set_header; cbv beta iota; [|done].
    rewrite forward_headers_run. by destruct h.
  - destruct (hdrs !! "Content-Type") as [v|];
      unfold set_header, mret, M_ret; cbv beta iota;
      rewrite forward_headers_run; by destruct h.
Qed.

Lemma Content_Type_not_forwarded : "Content-Type" ∉ FORWARD_HEADERS.
Proof.
  unfold FORWARD_HEADERS. rewrite !elem_of_cons, elem_of_nil.
  intros [?|[?|[?|[]]]]; discriminate.
Qed.

Local Arguments forwarded : simpl never.

(** C8, as amended.  The content type comes from the table, at the
    lower-cased format, when the pipeline declares a non-empty output format
    and a format was asked for with a non-empty [fmt], or one is configured,
    or the flag is set, for the formats of the table; when the pipeline
    declares no format, or none of the three holds, the upstream
    [Content-Type] is forwarded if there is one and the header is left as it
    was if not.  Whenever the headers are set without error, each of
    [Cache-Control], [Expires] and [Last-Modified] takes the upstream value
    if upstream has it non-empty, and is left as it was otherwise. *)
Theorem set_headers_content_type st rq hdrs file_format h :
  let r := _set_headers st rq hdrs file_format h in
  (∀ f mime,
     file_format = Some f → f ≠ "" → format_requested st rq = true →
     _FORMAT_TO_MIME !! lower f = Some mime →
     r.1 = Ok () ∧ _headers r.2 !! "Content-Type" = Some mime)
  ∧ (file_format = None ∨ file_format = Some ""
     ∨ format_requested st rq = false →
     r.1 = Ok ()
     ∧ _headers r.2 !! "Content-Type" =
         match hdrs !! "Content-Type" with
         | Some v => Some v
         | None => _headers h !! "Content-Type"
         end)
  ∧ (r.1 = Ok () →
     ∀ k, k ∈ FORWARD_HEADERS →
       _headers r.2 !! k =
         match hdrs !! k with
         | Some (String c v) => Some (String c v)
         | _ => _headers h !! k
         end).
Proof.
  intros r. subst r. rewrite set_headers_run.
  assert (Hct : ∀ m, forwarded hdrs FORWARD_HEADERS m !! "Content-Type"
                     = m !! "Content-Type").
  { intros m. rewrite lookup_forwarded.
    by rewrite decide_False by apply Content_Type_not_forwarded. }
  split; [|split].
  - intros f mime -> Hf Hreq Hmime.
    assert (truthy (of_arg (Some f)) = true) as -> by by destruct f.
    rewrite Hreq. simpl. rewrite Hmime. simpl.
    split; [done|]. rewrite Hct. apply lookup_insert_eq.
  - intros Hno.
    assert (truthy (of_arg file_format) && format_requested st rq = false)
      as -> by (destruct Hno as [-> | [-> | ->] ];
                [done|done|apply andb_false_r]).
    simpl. split; [done|]. rewrite Hct.
    destruct (hdrs !! "Content-Type"); [apply lookup_insert_eq|done].
  - intros Hok k Hk.
    assert (Hne : "Content-Type" ≠ k).
    { intros <-. by apply Content_Type_not_forwarded. }
    destruct (truthy (of_arg file_format) && format_requested st rq).
    + destruct (f ← file_format; _FORMAT_TO_MIME !! lower f);
        simpl in *; [|done].
      rewrite lookup_forwarded, decide_True by done.
      by rewrite lookup_insert_ne.
    + simpl. rewrite lookup_forwarded, decide_True by done.
      destruct (hdrs !! "Content-Type"); by rewrite ?lookup_insert_ne.
Qed.

(** C8, as stated, fails: on a [noop] request that asks for [png] output
    the pipeline declares no format, and the upstream content type is
    forwarded although an output format was asked for. *)
Lemma set_headers_content_type_counterexample :
  format_requested ∅ noop_png_request = true
  ∧ _headers (_set_headers ∅ noop_png_request upstream_headers None fresh).2
      !! "Content-Type" = Some "image/jpeg"
  ∧ _headers (_set_headers ∅ noop_png_request upstream_headers None fresh).2
      !! "Content-Type"
    ≠ content_type_rule ∅ noop_png_request upstream_headers None.
Proof. vm_compute. repeat split; congruence. Qed.

(** ** Pass-through *)

Section Noop.

Context (I : ImageLib).
Variable st : Settings.
Variable rq : Request.

(** C2.  When the operation list holds [noop], alone or with others, the
    pipeline makes no call to the image library: it returns the fetched
    bytes with no format and leaves the handler as it was.  Rendering then
    writes blocks that add up to the fetched bytes, sets [Content-Type] to
    the upstream one (leaving the header as it was when upstream has
    none), and makes no call either. *)
Theorem noop_passes_through resp h ops :
  _get_operations st rq = Ok ops →
  "noop" ∈ ops →
  _process_response I st rq resp h = (Ok (buffer resp, None), h)
  ∧ ∃ h',
      render_image I st rq resp h = (Ok (), h')
      ∧ calls h' = calls h
      ∧ concat (_write_buffer h') = concat (_write_buffer h) ++ buffer resp
      ∧ _headers h' !! "Content-Type" =
          match headers resp !! "Content-Type" with
          | Some v => Some v
          | None => _headers h !! "Content-Type"
          end.
Proof.
  intros Hops Hnoop.
  assert (Hp : _process_response I st rq resp h
               = (Ok (buffer resp, None), h)).
  { unfold _process_response. rewrite bind_run. unfold lift.
    rewrite Hops. unfold mem. by rewrite bool_decide_eq_true_2. }
  split; [done|].
  unfold render_image. rewrite bind_run, Hp, bind_run.
  rewrite set_headers_run. cbn [of_arg truthy andb].
  rewrite write_blocks_run. eexists. split; [reflexivity|].
  cbn [wrote with_headers calls _write_buffer _headers].
  split; [done|]. split.
  - rewrite concat_app.
    rewrite read_blocks_concat; [done|apply BLOCK_SIZE_pos|lia].
  - rewrite lookup_forwarded.
    rewrite decide_False by apply Content_Type_not_forwarded.
    destruct (headers resp !! "Content-Type");
      [apply lookup_insert_eq|done].
Qed.

End Noop.

(** ** Request validation: proofs *)

Lemma raises_intro {A} k msg : raises (A := A) (Raise (PilboxError k msg)) k.
Proof. by exists msg. Qed.

(** Case analysis on every test and every bind of a check. *)
Ltac check_cases :=
  repeat (simplify_eq/= || case_match
          || match goal with
             | H : context [mbind _ ?r] |- _ => destruct r eqn:?
             | |- context [mbind _ ?r] => destruct r eqn:?
             end).

Section Validation_proofs.

Context (L : Lib) (I : ImageLib).
Variable st : Settings.
Variable rq : Request.







Lemma get_rejected e h :
  validate_request L I st rq = Raise e →
  get L I st rq h = (Raise e, h).
Proof. intros H. unfold get. rewrite bind_run. unfold lift. by rewrite H. Qed.



Lemma validate_operation_unsupported ops allowed :
  _get_operations st rq = Ok ops →
  st !! "allowed_operations" = Some (VList allowed) →
  ¬ ops ⊆ allowed →
  _validate_operation st rq
  = Raise (PilboxError OperationError "Unsupported operation").
Proof.
  intros Hops Hallowed Hsub. unfold _validate_operation.
  rewrite Hops. simpl. unfold settings_get. rewrite Hallowed. simpl.
  rewrite bool_decide_eq_false_2; [done|].
  intros Hset. apply Hsub. intros o Ho.
  assert (o ∈ (list_to_set allowed : gset string)) as Hin
    by (apply Hset; by apply elem_of_list_to_set).
  by apply elem_of_list_to_set in Hin.
Qed.

(** [_validate_operation] sees the operations of a request as a set: two
    requests that name the same operations, however often and in whatever
    order, are judged alike. *)
Lemma validate_operation_set rq' ops ops' :
  _get_operations st rq = Ok ops →
  _get_operations st rq' = Ok ops' →
  (list_to_set ops : gset string) = list_to_set ops' →
  _validate_operation st rq = _validate_operation st rq'.
Proof.
  intros H H' Hset. unfold _validate_operation.
  rewrite H, H'. simpl. by rewrite Hset.
Qed.

(** C4.  When the operations of the request are not all among the allowed
    operations of the settings, validation raises [OperationError], and
    [get] raises it with the handler as it was: no fetch was made. *)
Theorem disallowed_operation_rejected ops allowed h :
  _get_operations st rq = Ok ops →
  st !! "allowed_operations" = Some (VList allowed) →
  ¬ ops ⊆ allowed →
  raises (validate_request L I st rq) OperationError
  ∧ (∃ msg, get L I st rq h = (Raise (PilboxError OperationError msg), h))
  ∧ calls (get L I st rq h).2 = calls h.
Proof.
  intros Hops Hallowed Hsub.
  pose proof (validate_operation_unsupported _ _ Hops Hallowed Hsub) as Hv.
  assert (Hr : validate_request L I st rq
               = Raise (PilboxError OperationError "Unsupported operation")).
  { unfold validate_request. by rewrite Hv. }
  split; [rewrite Hr; apply raises_intro|].
  rewrite (get_rejected _ h Hr). split; [by eexists | done].
Qed.

End Validation_proofs.

(** ** The watermark block *)

Lemma validate_watermark_args_unsupported u text :
  u ≠ "" → startswith u "http://" = false → startswith u "https://" = false →
  validate_watermark_args (Some u) text
  = Raise (PilboxError DimensionsError "Unsupported protocol").
Proof.
  intros Hu H1 H2. unfold validate_watermark_args.
  rewrite H1, H2. by destruct u.
Qed.

Lemma validate_watermark_args_empty_text url :
  validate_watermark_args url (Some "")
  = Raise (PilboxError DimensionsError "Unsupported protocol")
  ∨ validate_watermark_args url (Some "")
    = Raise (PilboxError DimensionsError "Watermark text cannot be empty").
Proof. unfold validate_watermark_args. check_cases; auto. Qed.

Lemma validate_watermark_args_empty_text_only url :
  (∀ u, url = Some u →
        u = "" ∨ startswith u "http://" = true
        ∨ startswith u "https://" = true) →
  validate_watermark_args url (Some "")
  = Raise (PilboxError DimensionsError "Watermark text cannot be empty").
Proof.
  intros Hurl. unfold validate_watermark_args.
  destruct url as [[|c u]|]; [done| |done].
  destruct (Hurl _ eq_refl) as [?|[->| ->]]; [done|done|].
  by rewrite andb_false_r.
Qed.

Lemma validate_watermark_args_missing :
  validate_watermark_args None None
  = Raise (PilboxError DimensionsError
             "Watermark requires either watermark_img or watermark_txt").
Proof. done. Qed.

Lemma validate_watermark_args_pass url text :
  url ≠ None ∨ text ≠ None →
  (∀ u, url = Some u →
        u = "" ∨ startswith u "http://" = true
        ∨ startswith u "https://" = true) →
  text ≠ Some "" →
  validate_watermark_args url text = Ok ().
Proof.
  intros Hpresent Hurl Htext. unfold validate_watermark_args.
  destruct url as [[|c u]|].
  - destruct text as [[|]|]; done.
  - destruct (Hurl _ eq_refl) as [?|[->| ->]]; [done| |];
      rewrite ?andb_false_r; destruct text as [[|]|]; done.
  - destruct text as [[|]|]; [done|done|]. by destruct Hpresent.
Qed.

Section Watermark_claims.

Context (L : Lib) (I : ImageLib).
Variable st : Settings.
Variable rq : Request.

Lemma validate_request_at_watermark opts :
  reaches_watermark L I st rq opts →
  validate_request L I st rq =
  (validate_watermark rq;; validate_options I opts).
Proof.
  intros (Hop & Hurl & Hsig & Hcl & Hhost & (ops & Hops & Hin) & Hbefore).
  unfold validate_request. rewrite Hop, Hurl, Hsig, Hcl, Hhost. simpl.
  unfold validate_arguments, arguments_before_watermark in *.
  rewrite Hops in *. simpl in *.
  assert (mem "watermark" ops = true) as ->
    by (unfold mem; by apply bool_decide_eq_true_2).
  destruct (if mem "resize" ops then _ else _) as [o1|]; simpl in *;
    [|done].
  destruct (if mem "rotate" ops then _ else _) as [o2|]; simpl in *;
    [|done].
  destruct (if mem "region" ops then _ else _) as [[]|]; simpl in *;
    [|done].
  by simplify_eq.
Qed.

Lemma raises_bind {B} (r : result ()) (f : () → result B) k :
  raises r k → raises (r ≫= f) k.
Proof. intros [msg ->]. by exists msg. Qed.

(** C5, as amended.  For a request that names [watermark] and passes the
    checks that run before the watermark block: it is rejected with
    [DimensionsError] when neither [watermark_img] nor [watermark_txt] is
    present, when [watermark_img] is given non-empty without an [http://]
    or [https://] scheme, and when [watermark_txt] is given empty; it
    passes the watermark block, so that the check of the merged options
    decides, when one of the two is present, [watermark_img] if given is
    empty or has such a scheme, and [watermark_txt] if given is not
    empty. *)
Theorem watermark_validation opts :
  reaches_watermark L I st rq opts →
  let url := get_argument rq "watermark_img" in
  let text := get_argument rq "watermark_txt" in
  (url = None → text = None →
   raises (validate_request L I st rq) DimensionsError)
  ∧ (∀ u, url = Some u → u ≠ "" →
       startswith u "http://" = false → startswith u "https://" = false →
       raises (validate_request L I st rq) DimensionsError)
  ∧ (text = Some "" → raises (validate_request L I st rq) DimensionsError)
  ∧ (url ≠ None ∨ text ≠ None →
     (∀ u, url = Some u →
           u = "" ∨ startswith u "http://" = true
           ∨ startswith u "https://" = true) →
     text ≠ Some "" →
     validate_watermark rq = Ok ()
     ∧ validate_request L I st rq = validate_options I opts).
Proof.
  intros Hreach url text.
  rewrite (validate_request_at_watermark opts Hreach).
  unfold validate_watermark. fold url text.
  split; [|split; [|split]].
  - intros -> ->. apply raises_bind. rewrite validate_watermark_args_missing.
    apply raises_intro.
  - intros u -> Hu H1 H2. apply raises_bind.
    rewrite validate_watermark_args_unsupported by done.
    apply raises_intro.
  - intros ->. apply raises_bind.
    destruct (validate_watermark_args_empty_text url) as [-> | ->];
      apply raises_intro.
  - intros Hpresent Hurl Htext.
    by rewrite validate_watermark_args_pass.
Qed.

(** C10, as amended.  For a request that names [watermark] and passes the
    checks that run before the watermark block: when [watermark_txt] is sent
    empty it is rejected with [DimensionsError] whatever [watermark_img] is;
    the error is the one for empty watermark text when [watermark_img] is
    absent, empty or has an [http://] or [https://] scheme, and the one for
    an unsupported protocol when [watermark_img] is not empty and has no
    such scheme, the scheme check running first.  When [watermark_img] is
    sent empty and [watermark_txt] is absent the watermark block passes, and
    the check of the merged options decides. *)
Theorem empty_watermark_text opts :
  reaches_watermark L I st rq opts →
  let url := get_argument rq "watermark_img" in
  let text := get_argument rq "watermark_txt" in
  (text = Some "" →
   raises (validate_request L I st rq) DimensionsError
   ∧ ((∀ u, url = Some u →
            u = "" ∨ startswith u "http://" = true
            ∨ startswith u "https://" = true) →
      validate_request L I st rq
      = Raise (PilboxError DimensionsError
                 "Watermark text cannot be empty"))
   ∧ (∀ u, url = Some u → u ≠ "" →
        startswith u "http://" = false → startswith u "https://" = false →
        validate_request L I st rq
        = Raise (PilboxError DimensionsError "Unsupported protocol")))
  ∧ (url = Some "" → text = None →
     validate_watermark rq = Ok ()
     ∧ validate_request L I st rq = validate_options I opts).
Proof.
  intros Hreach url text.
  rewrite (validate_request_at_watermark opts Hreach).
  unfold validate_watermark. fold url text. split.
  - intros ->. split; [|split].
    + apply raises_bind.
      destruct (validate_watermark_args_empty_text url) as [-> | ->];
        apply raises_intro.
    + intros Hurl. by rewrite validate_watermark_args_empty_text_only.
    + intros u -> Hu H1 H2.
      by rewrite validate_watermark_args_unsupported.
  - by intros -> ->.
Qed.

End Watermark_claims.

(** C5, as stated, fails: [watermark_img] sent empty is given without an
    [http://] or [https://] scheme, against the rule of the document, and
    the request is accepted all the same. *)
Lemma watermark_validation_counterexample :
  get_argument empty_watermark_img_request "watermark_img" = Some ""
  ∧ watermark_rule (Some "") None = false
  ∧ validate_watermark empty_watermark_img_request = Ok ()
  ∧ validate_request plain_lib plain_image stock_settings
      empty_watermark_img_request = Ok ()
  ∧ ¬ raises (validate_request plain_lib plain_image stock_settings
                empty_watermark_img_request) DimensionsError.
Proof.
  assert (H : validate_request plain_lib plain_image stock_settings
                empty_watermark_img_request = Ok ())
    by (vm_compute; reflexivity).
  split; [vm_compute; reflexivity|].
  split; [vm_compute; reflexivity|].
  split; [vm_compute; reflexivity|].
  split; [exact H|].
  rewrite H. intros [msg Hmsg]. discriminate Hmsg.
Qed.

(** C6 at the failing input: three operations are named where the settings
    allow two, [_validate_operation] counts the one distinct operation and
    accepts, the request is valid and the pipeline resizes three times. *)
Lemma repeated_operations_accepted :
  _get_operations two_operations_settings repeated_request
    = Ok ["resize"; "resize"; "resize"]
  ∧ settings_get two_operations_settings "max_operations" = VInt 2
  ∧ _validate_operation two_operations_settings repeated_request = Ok ()
  ∧ validate_request plain_lib plain_image two_operations_settings
      repeated_request = Ok ()
  ∧ (λ c, match c with CResize _ _ _ => true | _ => false end)
    <$> calls (get plain_lib plain_image two_operations_settings
                 repeated_request fresh).2
    = [false; false; true; true; true; false].
Proof. vm_compute. repeat split; reflexivity. Qed.

(** C10, as stated, fails: with [watermark_txt] sent empty and a
    [watermark_img] of another scheme, the request is rejected by the scheme
    check, which runs first, and not for the empty watermark text. *)
Lemma empty_watermark_text_counterexample :
  get_argument ftp_watermark_request "watermark_txt" = Some ""
  ∧ validate_request plain_lib plain_image stock_settings
      ftp_watermark_request
    = Raise (PilboxError DimensionsError "Unsupported protocol")
  ∧ validate_request plain_lib plain_image stock_settings
      ftp_watermark_request
    ≠ Raise (PilboxError DimensionsError "Watermark text cannot be empty").
Proof.
  assert (H : validate_request plain_lib plain_image stock_settings
                ftp_watermark_request
              = Raise (PilboxError DimensionsError "Unsupported protocol"))
    by (vm_compute; reflexivity).
  split; [vm_compute; reflexivity|]. split; [exact H|].
  rewrite H. discriminate.
Qed.

(** ** Shutdown: proofs *)

Section Shutdown_proofs.

Import Shutdown.
Local Open Scope Q_scope.

Lemma stop_loop_due k deadline w :
  deadline <= now k →
  stop_loop k deadline w =
  {| accepting := accepting w; loop_running := false;
     timeout := None; stopped_at := Some (now k);
     polls := now k :: polls w |}.
Proof.
  intros H. unfold stop_loop.
  by rewrite (proj2 (Qle_bool_iff _ _) H).
Qed.

Lemma stop_loop_early k deadline w :
  now k < deadline →
  stop_loop k deadline w =
  {| accepting := accepting w; loop_running := loop_running w;
     timeout := Some (now k + 1, deadline); stopped_at := stopped_at w;
     polls := now k :: polls w |}.
Proof.
  intros H. unfold stop_loop.
  destruct (Qle_bool deadline (now k)) eqn:E; [|done].
  apply Qle_bool_iff in E. lra.
Qed.

Lemma run_loop_stopped ticks w :
  loop_running w = false → run_loop ticks w = w.
Proof. intros H. destruct ticks; simpl; [done|]. by rewrite H. Qed.

(** A tick at which the timeout is due calls [stop_loop] back; a tick
    before that leaves the loop as it is. *)
Lemma run_loop_due k ticks w due deadline :
  loop_running w = true →
  timeout w = Some (due, deadline) →
  due <= now k →
  run_loop (k :: ticks) w =
  run_loop ticks
    (stop_loop k deadline
       {| accepting := accepting w; loop_running := true;
          timeout := None; stopped_at := stopped_at w;
          polls := polls w |}).
Proof.
  intros Hrun Hto Hdue. cbn [run_loop]. rewrite Hrun, Hto.
  by rewrite (proj2 (Qle_bool_iff _ _) Hdue).
Qed.

Lemma run_loop_wait k ticks w due deadline :
  loop_running w = true →
  timeout w = Some (due, deadline) →
  now k < due →
  run_loop (k :: ticks) w = run_loop ticks w.
Proof.
  intros Hrun Hto Hwait. cbn [run_loop]. rewrite Hrun, Hto.
  destruct (Qle_bool due (now k)) eqn:E; [|done].
  apply Qle_bool_iff in E. lra.
Qed.

Lemma stop_loop_accepting k deadline w :
  accepting (stop_loop k deadline w) = accepting w.
Proof. unfold stop_loop. by case_match. Qed.

Lemma run_loop_accepting ticks : ∀ w,
  accepting (run_loop ticks w) = accepting w.
Proof.
  induction ticks as [|k ticks IH]; intros w; simpl; [done|].
  destruct (loop_running w); [|done].
  destruct (timeout w) as [[due deadline]|]; [|done].
  destruct (Qle_bool due (now k)); [|apply IH].
  by rewrite IH, stop_loop_accepting.
Qed.

Lemma inject_nat_succ (n : nat) :
  inject_Z (Z.of_nat (S n)) == inject_Z (Z.of_nat n) + 1.
Proof. rewrite Nat2Z.inj_succ, <- Z.add_1_r, inject_Z_plus. reflexivity. Qed.

(** The polls stay at least one second apart: [stop_loop] sets its timeout
    one second after its reading, and the loop calls it back no earlier. *)
Lemma run_loop_spaced ticks : ∀ w,
  spaced (polls w) →
  (∀ due deadline p, timeout w = Some (due, deadline) →
     head (polls w) = Some p → p + 1 <= due) →
  spaced (polls (run_loop ticks w)).
Proof.
  induction ticks as [|k ticks IH]; intros w Hsp Hdue; [done|].
  cbn [run_loop].
  destruct (loop_running w) eqn:Hrun; [|done].
  destruct (timeout w) as [[due deadline]|] eqn:Hto; [|done].
  assert (Hlast : ∀ p, head (polls w) = Some p → p + 1 <= due)
    by (intros p Hp; by apply (Hdue due deadline p)).
  destruct (Qle_bool due (now k)) eqn:E.
  - apply Qle_bool_iff in E.
    assert (Hnew : spaced (now k :: polls w)).
    { split; [|done]. destruct (polls w) as [|p ps] eqn:Hp; [done|].
      specialize (Hlast p eq_refl). lra. }
    apply IH.
    + unfold stop_loop. by case_match.
    + intros due' deadline' p. unfold stop_loop.
      case_match; simpl; [|done]. intros [= <- _] [= <-]. lra.
  - apply IH; [done|]. intros due' deadline' p Hto' Hp.
    rewrite Hto in Hto'. injection Hto' as <- <-. by apply Hlast.
Qed.

(** A loop that waits under a timeout of [stop_loop], set no later than one
    second after the deadline, and that comes round at a time one second
    past the deadline or later, is stopped at the first poll at or after
    the deadline. *)
Lemma run_loop_reaches ticks : ∀ w due deadline,
  loop_running w = true →
  timeout w = Some (due, deadline) →
  due <= deadline + 1 →
  Forall (λ p, p < deadline) (polls w) →
  Exists (λ k, deadline + 1 <= now k) ticks →
  ∃ T earlier,
    run_loop ticks w =
    {| accepting := accepting w; loop_running := false;
       timeout := None; stopped_at := Some T; polls := T :: earlier |}
    ∧ Forall (λ p, p < deadline) earlier
    ∧ deadline <= T.
Proof.
  induction ticks as [|k ticks IH];
    intros w due deadline Hrun Hto Hdue Hpolls Hex.
  - by apply Exists_nil in Hex.
  - destruct (Qlt_le_dec (now k) due) as [Hwait|Hcall].
    + rewrite (run_loop_wait k ticks w due deadline) by done.
      apply (IH w due deadline); try done.
      apply Exists_cons in Hex as [Hk|Hex]; [lra|done].
    + rewrite (run_loop_due k ticks w due deadline) by done.
      destruct (Qlt_le_dec (now k) deadline) as [Hearly|Hlate].
      * rewrite stop_loop_early by done.
        cbn [accepting loop_running stopped_at polls].
        match goal with
        | |- context [run_loop ticks ?w1] =>
            destruct (IH w1 (now k + 1) deadline)
              as (T & earlier & Hr & Hb & HT);
              [reflexivity|reflexivity|lra|by constructor| |]
        end.
        -- apply Exists_cons in Hex as [Hk|Hex]; [lra|done].
        -- exists T, earlier. by rewrite Hr.
      * rewrite stop_loop_due by done.
        rewrite run_loop_stopped by done.
        by exists (now k), (polls w).
Qed.

(** With a loop that wakes exactly when the timeout is due, the polls are
    one second apart and the loop is stopped at the deadline itself. *)
Lemma run_loop_punctual ticks : ∀ w due deadline p ps (n : nat),
  loop_running w = true →
  timeout w = Some (due, deadline) →
  due == p + 1 →
  polls w = p :: ps →
  every_second (polls w) →
  punctual p ticks →
  (n < length ticks)%nat →
  deadline == p + inject_Z (Z.of_nat (S n)) →
  ∃ T, T == deadline
       ∧ stopped_at (run_loop ticks w) = Some T
       ∧ every_second (polls (run_loop ticks w))
       ∧ length (polls (run_loop ticks w)) = (length (polls w) + S n)%nat.
Proof.
  induction ticks as [|k ticks IH];
    intros w due deadline p ps n Hrun Hto Hdue Hp Hev Hpun Hn Hd;
    [simpl in Hn; lia|].
  destruct Hpun as [Hk Hpun].
  rewrite (run_loop_due k ticks w due deadline) by (done || lra).
  rewrite inject_nat_succ in Hd.
  assert (Hnew : every_second (now k :: polls w)).
  { split; [|done]. rewrite Hp. lra. }
  destruct n as [|n].
  - change (inject_Z (Z.of_nat 0)) with 0 in Hd.
    rewrite stop_loop_due by lra. rewrite run_loop_stopped by done.
    exists (now k). simpl. split; [lra|]. split; [done|].
    split; [done|]. lia.
  - assert (Hpos : 0 <= inject_Z (Z.of_nat n)).
    { change 0 with (inject_Z 0). rewrite <- Zle_Qle. lia. }
    rewrite inject_nat_succ in Hd.
    rewrite stop_loop_early by lra.
    match goal with
    | |- context [run_loop ticks ?w1] =>
        destruct (IH w1 (now k + 1) deadline (now k) (polls w) n)
          as (T & HT & Hs & He & Hl);
          [reflexivity|reflexivity|lra|reflexivity|exact Hnew|exact Hpun
          |simpl in Hn; lia| |]
    end.
    + rewrite inject_nat_succ. lra.
    + exists T. split; [done|]. split; [done|]. split; [done|].
      rewrite Hl. simpl. lia.
Qed.

Lemma stop_loop_times k k' deadline w :
  now k' = now k → stop_loop k' deadline w = stop_loop k deadline w.
Proof. intros H. unfold stop_loop. by rewrite H. Qed.

Lemma run_loop_times ticks : ∀ ticks' w,
  times ticks' = times ticks → run_loop ticks' w = run_loop ticks w.
Proof.
  induction ticks as [|k ticks IH]; intros [|k' ticks'] w H;
    simplify_eq/=; [done|].
  destruct (loop_running w); [|done].
  destruct (timeout w) as [[due deadline]|]; [|done].
  match goal with H : now k' = now k |- _ => rewrite H end.
  destruct (Qle_bool due (now k)); [|by apply IH].
  rewrite (stop_loop_times k k') by done. by apply IH.
Qed.

(** C9, as amended.  The server stops accepting connections as soon as the
    signal is handled, before any further tick, and never accepts again.
    The polls are at least one second apart, since [stop_loop] sets its
    timeout one second after its reading and the loop calls it back no
    earlier.  On a loop that was running and comes round at a time one
    second past the deadline or later, the loop is stopped at the first poll
    at or after the deadline, five seconds after the signal was handled,
    every poll before it being before the deadline.  With a loop that wakes
    exactly when the timeout is due, the polls are exactly one second apart
    and the sixth stops the loop at the deadline itself.  The work in flight
    plays no part: ticks at the same times give the same outcome whatever
    work they find, and a first poll before the deadline leaves the server
    draining. *)
Theorem drain_stops_at_deadline t k ticks w :
  let deadline := t + MAX_WAIT_SECONDS_BEFORE_SHUTDOWN in
  let w' := sig_handler t k ticks w in
  accepting (shutdown t k w) = false
  ∧ accepting w' = false
  ∧ (polls w = [] → spaced (polls w'))
  ∧ (loop_running w = true → polls w = [] →
     Exists (λ k', deadline + 1 <= now k') (k :: ticks) →
     ∃ T earlier,
       polls w' = T :: earlier
       ∧ Forall (λ p, p < deadline) earlier
       ∧ deadline <= T
       ∧ stopped_at w' = Some T
       ∧ phase w' = STOPPED)
  ∧ (loop_running w = true → polls w = [] → now k == t →
     punctual (now k) ticks → (5 ≤ length ticks)%nat →
     ∃ T, T == deadline
          ∧ stopped_at w' = Some T
          ∧ every_second (polls w')
          ∧ length (polls w') = 6%nat)
  ∧ (∀ k' ticks',
       times (k' :: ticks') = times (k :: ticks) →
       sig_handler t k' ticks' w = w')
  ∧ (loop_running w = true → now k < deadline →
     phase (shutdown t k w) = DRAINING).
Proof.
  intros deadline w'. subst w'. unfold sig_handler, shutdown.
  fold deadline.
  split; [by rewrite stop_loop_accepting|].
  split; [by rewrite run_loop_accepting, stop_loop_accepting|].
  split; [|split; [|split; [|split]]].
  - intros Hpolls. apply run_loop_spaced.
    + unfold stop_loop. case_match; simpl; by rewrite Hpolls.
    + intros due deadline' p. unfold stop_loop.
      case_match; simpl; [|done]. intros [= <- _] [= <-]. lra.
  - intros Hrun Hpolls Hex.
    destruct (Qlt_le_dec (now k) deadline) as [Hearly|Hdue].
    + rewrite stop_loop_early by done.
      cbn [accepting loop_running stopped_at polls timeout].
      match goal with
      | |- context [run_loop ticks ?w1] =>
          destruct (run_loop_reaches ticks w1 (now k + 1) deadline)
            as (T & earlier & Hr & Hb & HT);
            [exact Hrun|reflexivity|lra| | |]
      end.
      * rewrite Hpolls. by repeat constructor.
      * apply Exists_cons in Hex as [Hk|Hex]; [lra|done].
      * exists T, earlier. rewrite Hr. by repeat split.
    + rewrite stop_loop_due by done. rewrite run_loop_stopped by done.
      exists (now k), []. simpl. rewrite Hpolls. by repeat split.
  - intros Hrun Hpolls Hk Hpun Hlen.
    rewrite stop_loop_early
      by (unfold deadline, MAX_WAIT_SECONDS_BEFORE_SHUTDOWN; lra).
    cbn [accepting loop_running stopped_at polls timeout].
    match goal with
    | |- context [run_loop ticks ?w1] =>
        destruct (run_loop_punctual ticks w1 (now k + 1) deadline (now k)
                    (polls w) 4)
          as (T & HT & Hs & He & Hl);
          [exact Hrun|reflexivity|lra|reflexivity| |exact Hpun|lia| |]
    end.
    + simpl. by rewrite Hpolls.
    + change (inject_Z (Z.of_nat 5)) with 5.
      unfold deadline, MAX_WAIT_SECONDS_BEFORE_SHUTDOWN. lra.
    + exists T. split; [done|]. split; [done|]. split; [done|].
      rewrite Hl. simpl. by rewrite Hpolls.
  - intros k' ticks' H. simplify_eq/=.
    rewrite (stop_loop_times k k') by done. by apply run_loop_times.
  - intros Hrun Hearly. rewrite stop_loop_early by done.
    unfold phase. simpl. by rewrite Hrun.
Qed.

End Shutdown_proofs.

(** C9, as stated, fails: on a server with no work in flight the rule of
    the document ends the drain at the first poll, and the code leaves the
    server draining until the deadline. *)
Lemma drain_stops_at_deadline_counterexample :
  stop_rule (idle_at 0) (0 + Shutdown.MAX_WAIT_SECONDS_BEFORE_SHUTDOWN) = true
  ∧ Shutdown.phase (Shutdown.sig_handler 0 (idle_at 0) [idle_at 1] serving)
    = Shutdown.DRAINING
  ∧ Shutdown.phase (Shutdown.sig_handler 0 (idle_at 0) [idle_at 1] serving)
    ≠ Shutdown.STOPPED.
Proof. vm_compute. repeat split; congruence. Qed.

(** ** The statements at concrete requests *)

(** A request that names [watermark] alone reaches the watermark block with
    the save options, under the stand-in collaborators. *)
Ltac reaches_by_computation :=
  repeat (split; [vm_compute; reflexivity|]);
  split;
  [ eexists; split;
    [ vm_compute; reflexivity
    | apply elem_of_cons; left; reflexivity ]
  | vm_compute; reflexivity ].

Lemma noop_passes_through_witness :
  _process_response plain_image stock_settings noop_png_request
    upstream_response fresh
  = (Ok (buffer upstream_response, None), fresh).
Proof.
  apply (noop_passes_through plain_image stock_settings noop_png_request
           upstream_response fresh ["noop"]).
  - vm_compute; reflexivity.
  - apply elem_of_cons; left; reflexivity.
Defined.


Lemma disallowed_operation_rejected_witness :
  raises (validate_request plain_lib plain_image stock_settings blur_request)
         OperationError.
Proof.
  apply (disallowed_operation_rejected plain_lib plain_image stock_settings
           blur_request ["blur"] OPERATIONS fresh).
  - vm_compute; reflexivity.
  - vm_compute; reflexivity.
  - intros Hsub.
    assert (H : "blur" ∈ OPERATIONS)
      by (apply Hsub, elem_of_cons; left; reflexivity).
    unfold OPERATIONS in H. rewrite !elem_of_cons, elem_of_nil in H.
    destruct H as [H|[H|[H|[H|[H|[]]]]]]; discriminate H.
Defined.

Lemma watermark_validation_witness :
  raises (validate_request plain_lib plain_image stock_settings
            no_watermark_source_request) DimensionsError.
Proof.
  assert (Hreach : reaches_watermark plain_lib plain_image stock_settings
            no_watermark_source_request
            (_get_save_options stock_settings no_watermark_source_request))
    by reaches_by_computation.
  pose proof (watermark_validation plain_lib plain_image stock_settings
                no_watermark_source_request _ Hreach) as H.
  cbv zeta in H. destruct H as [H _].
  apply H; vm_compute; reflexivity.
Defined.

Lemma empty_watermark_text_witness :
  raises (validate_request plain_lib plain_image stock_settings
            empty_watermark_txt_request) DimensionsError.
Proof.
  assert (Hreach : reaches_watermark plain_lib plain_image stock_settings
            empty_watermark_txt_request
            (_get_save_options stock_settings empty_watermark_txt_request))
    by reaches_by_computation.
  pose proof (empty_watermark_text plain_lib plain_image stock_settings
                empty_watermark_txt_request _ Hreach) as H.
  cbv zeta in H. destruct H as [H _].
  assert (Htext : get_argument empty_watermark_txt_request "watermark_txt"
                  = Some "") by (vm_compute; reflexivity).
  destruct (H Htext) as [Hraises _]. exact Hraises.
Defined.

Lemma pipeline_order_witness :
  ∃ done,
    calls (_process_response plain_image stock_settings resize_rotate_request
             upstream_response fresh).2 = calls fresh ++ done
    ∧ head done = Some (CImage (buffer upstream_response)).
Proof.
  destruct (pipeline_order plain_image stock_settings resize_rotate_request
              upstream_response fresh ["resize"; "rotate"])
    as (done & Hcalls & _ & Hhead & _).
  - vm_compute; reflexivity.
  - rewrite !elem_of_cons, elem_of_nil.
    intros [H|[H|[]]]; discriminate H.
  - exists done. split; assumption.
Defined.

Lemma set_headers_content_type_witness :
  (_set_headers stock_settings resize_rotate_request upstream_headers
     (Some "PNG") fresh).1 = Ok ()
  ∧ _headers (_set_headers stock_settings resize_rotate_request
                upstream_headers (Some "PNG") fresh).2 !! "Content-Type"
    = Some "image/png".
Proof.
  pose proof (set_headers_content_type stock_settings resize_rotate_request
                upstream_headers (Some "PNG") fresh) as H.
  cbv zeta in H. destruct H as [H _].
  apply (H "PNG" "image/png").
  - reflexivity.
  - discriminate.
  - vm_compute; reflexivity.
  - vm_compute; reflexivity.
Defined.

Lemma drain_stops_at_deadline_witness :
  ∃ T, (T == 0 + Shutdown.MAX_WAIT_SECONDS_BEFORE_SHUTDOWN)%Q
       ∧ Shutdown.stopped_at
           (Shutdown.sig_handler 0 (idle_at 0) five_ticks serving) = Some T
       ∧ Shutdown.every_second
           (Shutdown.polls
              (Shutdown.sig_handler 0 (idle_at 0) five_ticks serving))
       ∧ length (Shutdown.polls
                   (Shutdown.sig_handler 0 (idle_at 0) five_ticks serving))
         = 6%nat.
Proof.
  pose proof (drain_stops_at_deadline 0 (idle_at 0) five_ticks serving) as H.
  cbv zeta in H. destruct H as (_ & _ & _ & _ & H & _).
  apply H.
  - reflexivity.
  - reflexivity.
  - reflexivity.
  - vm_compute. repeat split; reflexivity.
  - vm_compute. lia.
Defined.

(** ** The checks of [validate_request], one by one *)

Lemma size_list_to_set_le (l : list string) :
  (size (list_to_set l : gset string) ≤ length l)%nat.
Proof.
  induction l as [|x l IH].
  - rewrite list_to_set_nil, size_empty. done.
  - rewrite list_to_set_cons, size_union_alt, size_singleton. simpl.
    assert (size ((list_to_set l : gset string) ∖ {[x]})
            ≤ size (list_to_set l : gset string))%nat
      by (apply subseteq_size; intros y Hy;
          by apply elem_of_difference in Hy as [? _]).
    lia.
Qed.

Lemma list_to_set_subseteq (l k : list string) :
  (list_to_set l : gset string) ⊆ list_to_set k ↔ l ⊆ k.
Proof.
  split.
  - intros H x Hx. apply (elem_of_list_to_set (C := gset string)).
    apply H. by apply elem_of_list_to_set.
  - intros H x Hx. apply elem_of_list_to_set.
    apply H. by apply elem_of_list_to_set in Hx.
Qed.

Lemma empty_field_after_comma s :
  ∃ l, l ≠ [] ∧ split_comma (s +:+ ",") = l ++ [""].
Proof.
  induction s as [|c s (l & Hl & IH)]; simpl.
  - by exists [""].
  - destruct (Ascii.eqb c ",").
    + exists ("" :: l). by rewrite IH.
    + rewrite IH. destruct l as [|f l]; [done|]. by exists (String c f :: l).
Qed.

Local Arguments startswith : simpl never.

Section More_validation.

Context (L : Lib) (I : ImageLib).
Variable st : Settings.
Variable rq : Request.

(** The url check accepts exactly the urls that are not empty and start
    with [http://] or [https://], or with [/] when an implicit base url is
    configured; every other request is answered [UrlError], a missing or
    empty url as missing, the rest as an unsupported protocol. *)
Theorem validate_url_accepts :
  (_validate_url st rq = Ok () ↔
   ∃ u, get_argument rq "url" = Some u ∧ u ≠ ""
        ∧ (startswith u "http://" = true ∨ startswith u "https://" = true
           ∨ (truthy (settings_get st "implicit_base_url") = true
              ∧ startswith u "/" = true)))
  ∧ (_validate_url st rq = Ok () ∨ raises (_validate_url st rq) UrlError)
  ∧ (_validate_url st rq = Raise (PilboxError UrlError "Missing url") ↔
     get_argument rq "url" = None ∨ get_argument rq "url" = Some "").
Proof.
  unfold _validate_url.
  destruct (get_argument rq "url") as [[|c u]|].
  - split; [|split].
    + split; [done|]. by intros (u & [= <-] & ? & _).
    + right. apply raises_intro.
    + split; auto.
  - simpl. set (v := String c u).
    destruct (startswith v "http://") eqn:E1; simpl.
    { split; [|split]; [|by left|].
      - split; [|done]. intros _. exists v.
        split; [done|]. split; [done|]. by left.
      - split; [done|]. by intros [|]. }
    destruct (startswith v "https://") eqn:E2; simpl.
    { split; [|split]; [|by left|].
      - split; [|done]. intros _. exists v.
        split; [done|]. split; [done|]. right. by left.
      - split; [done|]. by intros [|]. }
    destruct (truthy (settings_get st "implicit_base_url")
              && startswith v "/") eqn:E3.
    { apply andb_true_iff in E3 as [E3 E4].
      split; [|split]; [|by left|].
      - split; [|done]. intros _. exists v.
        split; [done|]. split; [done|]. right. right. by split.
      - split; [done|]. by intros [|]. }
    split; [|split].
    + split; [done|]. intros (u' & [= <-] & _ & [?|[?|[H3 H4]]]);
        [congruence|congruence|].
      fold v in H4. by rewrite H3, H4 in E3.
    + right. apply raises_intro.
    + split; [done|]. by intros [|].
  - split; [|split].
    + split; [done|]. by intros (u & ? & _).
    + right. apply raises_intro.
    + split; auto.
Qed.

(** With a client name configured, a request passes the client check
    exactly when its [client] argument is that name; a request without the
    argument is answered [ClientError] like one with another name.  With no
    client name, or an empty one, every request passes. *)
Theorem validate_client_exact :
  (∀ name, settings_get st "client_name" = VStr name → name ≠ "" →
     (_validate_client st rq = Ok () ↔ get_argument rq "client" = Some name)
     ∧ (get_argument rq "client" ≠ Some name →
        _validate_client st rq
        = Raise (PilboxError ClientError "Invalid client")))
  ∧ (truthy (settings_get st "client_name") = false →
     _validate_client st rq = Ok ()).
Proof.
  unfold _validate_client. split.
  - intros name -> Hname.
    assert (truthy (VStr name) = true) as -> by by destruct name.
    cbn [andb]. destruct (get_argument rq "client") as [c|]; cbn [of_arg].
    + destruct (decide (c = name)) as [->|Hne].
      * rewrite bool_decide_eq_false_2 by (intros H; by apply H).
        split; [done|]. by intros [].
      * rewrite bool_decide_eq_true_2 by congruence.
        split; [|done]. split; [done|congruence].
    + rewrite bool_decide_eq_true_2 by done. split; [|done]. by split.
  - by intros ->.
Qed.

(** With a non-empty list of allowed hosts: when [urlparse] gives the host
    name of the url, or none, the request passes the host check exactly when
    there is a host name and it is in the list, and is answered [HostError]
    otherwise; when [urlparse] raises on the url, its exception goes through
    and no [HostError] is raised.  With no list, or an empty one, every
    request passes, the url not being parsed. *)
Theorem validate_host_member :
  (∀ hosts, settings_get st "allowed_hosts" = VList hosts → hosts ≠ [] →
     (∀ host,
        urlparse_hostname L (get_argument rq "url") = Returns host →
        (_validate_host L st rq = Ok () ↔ ∃ h, host = Some h ∧ h ∈ hosts)
        ∧ (_validate_host L st rq = Ok ()
           ∨ _validate_host L st rq
             = Raise (PilboxError HostError "Invalid host")))
     ∧ (∀ cls,
          urlparse_hostname L (get_argument rq "url") = Throws cls →
          _validate_host L st rq = Raise (PyError cls)))
  ∧ (truthy (settings_get st "allowed_hosts") = false →
     _validate_host L st rq = Ok ()).
Proof.
  unfold _validate_host. split.
  - intros hosts -> Hhosts.
    assert (truthy (VList hosts) = true) as -> by by destruct hosts.
    split.
    + intros host ->. unfold py_in. destruct host as [h|]; simpl.
      * unfold mem. destruct (decide (h ∈ hosts)) as [Hin|Hout].
        -- rewrite bool_decide_eq_true_2 by done.
           split; [|by left]. split; [|done]. intros _. by exists h.
        -- rewrite bool_decide_eq_false_2 by done.
           split; [|by right]. split; [done|].
           by intros (h' & [= <-] & ?).
      * split; [|by right]. split; [done|]. by intros (h & ? & _).
    + by intros cls ->.
  - by intros ->.
Qed.

(** With a list of allowed operations and an integer limit in the settings,
    the operation check accepts exactly the requests whose operations are
    all allowed and whose number of distinct operations is within the limit;
    every other request is answered [OperationError]. *)
Theorem validate_operation_accepts ops allowed m :
  _get_operations st rq = Ok ops →
  settings_get st "allowed_operations" = VList allowed →
  settings_get st "max_operations" = VInt m →
  (_validate_operation st rq = Ok () ↔
   ops ⊆ allowed ∧ Z.of_nat (size (list_to_set ops : gset string)) <= m)
  ∧ (_validate_operation st rq = Ok ()
     ∨ raises (_validate_operation st rq) OperationError).
Proof.
  intros Hops Hallowed Hmax. unfold _validate_operation.
  rewrite Hops. simpl. rewrite Hallowed, Hmax. simpl.
  destruct (decide (ops ⊆ allowed)) as [Hsub|Hsub].
  - rewrite bool_decide_eq_true_2 by by apply list_to_set_subseteq.
    simpl. destruct (Z.ltb_spec m (Z.of_nat (size (list_to_set ops : gset string)))).
    + split; [|right; apply raises_intro]. split; [done|]. lia.
    + split; [|by left]. by split.
  - rewrite bool_decide_eq_false_2 by by rewrite list_to_set_subseteq.
    simpl. split; [|right; apply raises_intro]. split; [done|]. tauto.
Qed.

Lemma validate_operation_within ops allowed m :
  _get_operations st rq = Ok ops →
  settings_get st "allowed_operations" = VList allowed →
  settings_get st "max_operations" = VInt m →
  Z.of_nat (length allowed) <= m →
  (_validate_operation st rq = Ok () ↔ ops ⊆ allowed)
  ∧ (_validate_operation st rq = Ok ()
     ∨ _validate_operation st rq
       = Raise (PilboxError OperationError "Unsupported operation")).
Proof.
  intros Hops Hallowed Hmax Hlen. unfold _validate_operation.
  rewrite Hops. simpl. rewrite Hallowed, Hmax. simpl.
  destruct (decide (ops ⊆ allowed)) as [Hsub|Hsub].
  - rewrite bool_decide_eq_true_2 by by apply list_to_set_subseteq.
    simpl.
    assert (size (list_to_set ops : gset string)
            ≤ size (list_to_set allowed : gset string))%nat
      by by apply subseteq_size, list_to_set_subseteq.
    pose proof (size_list_to_set_le allowed).
    destruct (Z.ltb_spec m (Z.of_nat (size (list_to_set ops : gset string))));
      [lia|]. split; [done|by left].
  - rewrite bool_decide_eq_false_2 by by rewrite list_to_set_subseteq.
    simpl. split; [|by right]. split; [done|tauto].
Qed.

(** When the limit is at least the number of allowed operations, as with
    the stock limit of ten and the five stock operations, the operation
    check never answers that there are too many operations: it accepts
    exactly the requests whose operations are all allowed and answers the
    others that an operation is unsupported, however long the list of the
    request is. *)
Theorem too_many_operations_unreachable ops allowed m :
  _get_operations st rq = Ok ops →
  settings_get st "allowed_operations" = VList allowed →
  settings_get st "max_operations" = VInt m →
  Z.of_nat (length allowed) <= m →
  (_validate_operation st rq = Ok () ↔ ops ⊆ allowed)
  ∧ (_validate_operation st rq = Ok ()
     ∨ _validate_operation st rq
       = Raise (PilboxError OperationError "Unsupported operation")).
Proof. apply validate_operation_within. Qed.

(** An [op] argument that is empty or ends in a comma names the empty
    operation; unless the settings allow an operation of that name, the
    request is answered [OperationError]. *)
Theorem empty_operation_rejected s allowed :
  get_argument rq "op" = Some "" ∨ get_argument rq "op" = Some (s +:+ ",") →
  settings_get st "allowed_operations" = VList allowed →
  "" ∉ allowed →
  _validate_operation st rq
  = Raise (PilboxError OperationError "Unsupported operation").
Proof.
  intros Hop Hallowed Hno. unfold _validate_operation, _get_operations.
  assert (∃ ops, get_argument rq "op" = Some ops ∧ "" ∈ split_comma ops)
    as (ops & -> & Hin).
  { destruct Hop as [->| ->]; eexists; (split; [done|]).
    - by apply list_elem_of_singleton.
    - destruct (empty_field_after_comma s) as (l & _ & ->).
      apply elem_of_app. right. by apply list_elem_of_singleton. }
  simpl. rewrite Hallowed. simpl.
  rewrite bool_decide_eq_false_2; [done|].
  rewrite list_to_set_subseteq. intros Hsub. by apply Hno, Hsub.
Qed.

(** The resize block, once the dimensions are well formed: a width over the
    limit is answered [DimensionsError] for the width whatever the height
    is; with the width within its limit, a height over the limit is answered
    [DimensionsError] for the height; with both within their limits, a
    dimension equal to its limit included, the block passes and adds the
    resize options to the options. *)
Theorem resize_limits opts mw mh :
  validate_dimensions I (get_argument rq "w") (get_argument rq "h") = Ok () →
  settings_get st "max_resize_width" = VInt mw →
  settings_get st "max_resize_height" = VInt mh →
  (∀ s n, get_argument rq "w" = Some s → s ≠ "" → py_int L s = Some n →
     mw < n →
     validate_resize L I st rq opts = Raise
       (PilboxError DimensionsError "Exceeds maximum allowed width"))
  ∧ (within L (get_argument rq "w") mw →
     ∀ s n, get_argument rq "h" = Some s → s ≠ "" → py_int L s = Some n →
       mh < n →
       validate_resize L I st rq opts = Raise
         (PilboxError DimensionsError "Exceeds maximum allowed height"))
  ∧ (within L (get_argument rq "w") mw →
     within L (get_argument rq "h") mh →
     validate_resize L I st rq opts = Ok (_get_resize_options st rq ∪ opts)).
Proof.
  intros Hdim Hmw Hmh. unfold validate_resize.
  rewrite Hdim, Hmw, Hmh. simpl.
  assert (Hover : ∀ a s n m, a = Some s → s ≠ "" → py_int L s = Some n →
            m < n → exceeds L a (VInt m) = Ok true).
  { intros a s n m -> Hs Hn Hlt. unfold exceeds.
    destruct s; [done|]. rewrite Hn. simpl.
    by rewrite (proj2 (Z.ltb_lt _ _)). }
  assert (Hin : ∀ a m, within L a m → exceeds L a (VInt m) = Ok false).
  { intros a m [->|[->|(s & n & -> & Hn & Hle)]]; [done|done|].
    unfold exceeds. destruct s; [done|]. rewrite Hn. simpl.
    by rewrite (proj2 (Z.ltb_ge _ _)). }
  split; [|split].
  - intros s n Hw Hs Hn Hlt. by rewrite (Hover _ _ _ _ Hw Hs Hn Hlt).
  - intros Hw s n Hh Hs Hn Hlt.
    rewrite (Hin _ _ Hw). simpl. by rewrite (Hover _ _ _ _ Hh Hs Hn Hlt).
  - intros Hw Hh. by rewrite (Hin _ _ Hw), (Hin _ _ Hh).
Qed.

End More_validation.

(** ** The operation list and the option dictionaries *)

Lemma split_comma_not_nil s : split_comma s ≠ [].
Proof.
  destruct s as [|c s]; simpl; [done|].
  destruct (Ascii.eqb c ","); [done|]. by destruct (split_comma s).
Qed.

Lemma split_comma_no_comma s :
  Forall (λ o, has_comma o = false) (split_comma s).
Proof.
  induction s as [|c s IH]; simpl.
  - by constructor.
  - destruct (Ascii.eqb c ",") eqn:E; [by constructor|].
    destruct (split_comma s) as [|f fs]; [by repeat constructor; simpl; rewrite E|].
    inversion_clear IH as [|? ? Hf Hfs].
    constructor; [|done]. simpl. by rewrite E, Hf.
Qed.

Lemma join_split_comma s : join_comma (split_comma s) = s.
Proof.
  induction s as [|c s IH]; simpl; [done|].
  destruct (Ascii.eqb_spec c ",") as [->|Hc].
  - pose proof (split_comma_not_nil s).
    destruct (split_comma s) as [|f fs] eqn:E; [done|].
    simpl in *. by rewrite IH.
  - destruct (split_comma s) as [|f fs] eqn:E.
    + by destruct (split_comma_not_nil s).
    + rewrite <- IH. by destruct fs.
Qed.

Section More_options.

Variable st : Settings.
Variable rq : Request.

(** The operation list is never empty and none of its entries holds a
    comma; when the request has an [op] argument, the entries joined by
    commas give that argument back, so the list keeps every field of it,
    empty ones and repeats included, in order. *)
Theorem get_operations_fields ops :
  _get_operations st rq = Ok ops →
  ops ≠ []
  ∧ Forall (λ o, has_comma o = false) ops
  ∧ (∀ s, get_argument rq "op" = Some s → join_comma ops = s).
Proof.
  unfold _get_operations. intros H.
  assert (∃ s, ops = split_comma s
               ∧ (∀ s', get_argument rq "op" = Some s' → s' = s))
    as (s & -> & Hs).
  { destruct (get_argument rq "op") as [s|].
    - exists s. split; [congruence|]. by intros s' [= ->].
    - destruct (if truthy _ then _ else _) as [|s| | |];
        try discriminate H.
      exists s. split; [congruence|done]. }
  split; [apply split_comma_not_nil|].
  split; [apply split_comma_no_comma|].
  intros s' Hs'. rewrite (Hs _ Hs'). apply join_split_comma.
Qed.

(** Resolving options a second time changes nothing, and resolving never
    adds or drops a key. *)
Theorem get_options_idempotent (opts : gmap string value) :
  _get_options st (_get_options st opts) = _get_options st opts
  ∧ dom (_get_options st opts) = dom opts.
Proof.
  split.
  - apply map_eq. intros k. rewrite !lookup_get_options.
    destruct (opts !! k) as [v|]; simpl; [|done].
    destruct v; simpl; try done.
    by destruct (settings_get st k).
  - apply set_eq. intros k. rewrite !elem_of_dom, lookup_get_options.
    by rewrite fmap_is_Some.
Qed.

Lemma fields_agree f g k a a' :
  (k, a) ∈ fields_of f → (k, a') ∈ fields_of g → a = a'.
Proof.
  destruct f, g; simpl;
    unfold resize_fields, rotate_fields, watermark_fields, save_fields;
    rewrite !elem_of_cons, !elem_of_nil; intros Hf Hg;
    repeat match goal with
           | H : _ ∨ _ |- _ => destruct H
           | H : False |- _ => destruct H
           | H : (_, _) = (_, _) |- _ => injection H as ? ?
           end; congruence.
Qed.

Lemma family_lookup f k v :
  family_options st rq f !! k = Some v →
  ∃ a, (k, a) ∈ fields_of f
       ∧ v = match get_argument rq a with
             | Some s => VStr s
             | None => settings_get st k
             end.
Proof.
  rewrite family_options_unfold, lookup_get_options, lookup_dict_of_args.
  destruct (list_to_map (fields_of f) !! k) as [a|] eqn:E; simpl; [|done].
  intros [= <-]. exists a. split; [by apply elem_of_list_to_map_2|].
  by destruct (get_argument rq a).
Qed.

(** An option that two families share, as [background] is shared by resize
    and save and the watermark options by watermark and save, resolves to
    the same value in both; so when [validate_request] updates the save
    options with the resize options and then with the rotate options, every
    entry already there keeps its value. *)
Theorem shared_options_agree :
  (∀ f g k v v',
     family_options st rq f !! k = Some v →
     family_options st rq g !! k = Some v' → v = v')
  ∧ (∀ k v, _get_save_options st rq !! k = Some v →
       (_get_resize_options st rq ∪ _get_save_options st rq) !! k = Some v
       ∧ (_get_rotate_options st rq
          ∪ (_get_resize_options st rq ∪ _get_save_options st rq)) !! k
         = Some v).
Proof.
  assert (Hagree : ∀ f g k v v',
     family_options st rq f !! k = Some v →
     family_options st rq g !! k = Some v' → v = v').
  { intros f g k v v' Hf Hg.
    apply family_lookup in Hf as (a & Ha & ->).
    apply family_lookup in Hg as (a' & Ha' & ->).
    by rewrite (fields_agree _ _ _ _ _ Ha Ha'). }
  split; [exact Hagree|].
  intros k v Hsave.
  assert (Hrs : (_get_resize_options st rq ∪ _get_save_options st rq) !! k
                = Some v).
  { destruct (_get_resize_options st rq !! k) as [v'|] eqn:E.
    - rewrite (lookup_union_Some_l _ _ _ v') by done.
      f_equal. exact (Hagree Resize Save k v' v E Hsave).
    - by rewrite lookup_union_r. }
  split; [done|].
  destruct (_get_rotate_options st rq !! k) as [v'|] eqn:E.
  - rewrite (lookup_union_Some_l _ _ _ v') by done.
    f_equal. exact (Hagree Rotate Save k v' v E Hsave).
  - by rewrite lookup_union_r.
Qed.

End More_options.

(** ** Fetch, rendering and headers *)

Lemma read_blocks_lookup n fuel : ∀ data i b,
  (0 < n)%nat → (length data < fuel)%nat →
  read_blocks fuel n data !! i = Some b ↔
  (i * n < length data)%nat ∧ b = take n (drop (i * n) data).
Proof.
  induction fuel as [|fuel IH]; intros data i b Hn Hlen; [lia|].
  cbn [read_blocks]. destruct (take n data) as [|x block] eqn:Ht;
    cbv beta iota.
  - assert (data = []) as -> by (destruct data, n; simpl in *; done || lia).
    rewrite lookup_nil. simpl. split; [done|]. lia.
  - assert (Hdata : (0 < length data)%nat)
      by (destruct data; [by destruct n|simpl; lia]).
    destruct i as [|i].
    + simpl. rewrite <- Ht. split.
      * by intros [= <-].
      * by intros [_ ->].
    + rewrite lookup_cons_ne_0 by done. simpl.
      rewrite IH by (rewrite ?length_drop; lia).
      rewrite length_drop, drop_drop.
      replace (n + i * n)%nat with (n + i * n)%nat by done.
      split; intros [? ->]; (split; [lia|done]).
Qed.

Local Arguments read_blocks : simpl never.

Lemma transform_call_not_fetch st rq operation c :
  transform_call st rq operation = Some c → is_fetch c = false.
Proof.
  unfold transform_call. intros H.
  repeat case_match; simplify_eq/=; try done.
  by destruct (get_argument rq "rect"); simplify_eq/=.
Qed.

Section More_handler.

Context (L : Lib) (I : ImageLib).
Variable st : Settings.
Variable rq : Request.

Lemma transforms_log_not_fetch ops : ∀ image,
  Forall (λ c, is_fetch c = false) (transforms_log I st rq ops image).
Proof.
  induction ops as [|operation ops IH]; intros image; simpl; [done|].
  apply Forall_app. split.
  - destruct (transform_call st rq operation) as [c|] eqn:E; simpl; [|done].
    constructor; [|done]. by apply transform_call_not_fetch in E.
  - by destruct (transform I st rq operation image).
Qed.

Lemma process_response_effects resp h :
  ∃ cs, (_process_response I st rq resp h).2 = logged h cs
        ∧ Forall (λ c, is_fetch c = false) cs.
Proof.
  destruct (_get_operations st rq) as [ops|e] eqn:Hops.
  - destruct (mem "noop" ops) eqn:Hnoop.
    + exists []. split; [|done]. unfold _process_response.
      rewrite bind_run. unfold lift. rewrite Hops, Hnoop. simpl.
      by rewrite logged_nil.
    + rewrite (process_response_run I st rq resp h ops Hops Hnoop).
      eexists. split; [reflexivity|]. constructor; [done|].
      destruct (Image_new I (buffer resp)); [|done].
      apply Forall_app. split; [apply transforms_log_not_fetch|].
      destruct (transforms I st rq ops a); [by repeat constructor|done].
  - exists []. split; [|done]. unfold _process_response.
    rewrite bind_run. unfold lift. rewrite Hops. simpl.
    by rewrite logged_nil.
Qed.

Lemma set_headers_effects hdrs file_format h :
  ∃ m, (_set_headers st rq hdrs file_format h).2 = with_headers h m.
Proof.
  rewrite set_headers_run. repeat case_match; simpl; eauto.
  exists (_headers h). by rewrite with_headers_id.
Qed.

Lemma render_image_run resp h :
  render_image I st rq resp h =
  match _process_response I st rq resp h with
  | (Ok (outfile, outfile_format), h1) =>
      match _set_headers st rq (headers resp) outfile_format h1 with
      | (Ok _, h2) =>
          (Ok (), wrote h2 (read_blocks (S (length outfile)) BLOCK_SIZE
                              outfile))
      | (Raise e, h2) => (Raise e, h2)
      end
  | (Raise e, h1) => (Raise e, h1)
  end.
Proof.
  unfold render_image. rewrite bind_run.
  destruct (_process_response I st rq resp h) as [[[out fmt]|e] h1]; [|done].
  rewrite bind_run.
  destruct (_set_headers st rq (headers resp) fmt h1) as [[[]|e] h2]; [|done].
  by rewrite write_blocks_run.
Qed.

Lemma fetch_image_run h :
  fetch_image L st rq h =
  match fetch_url L st rq with
  | Raise e => (Raise e, h)
  | Ok u =>
      (match client_fetch L st u with
       | Fetched resp => Ok resp
       | FetchFailed => Raise (PilboxError FetchError "")
       | FetchRaised cls => Raise (PyError cls)
       end, logged h [CFetch u])
  end.
Proof.
  unfold fetch_image. rewrite bind_run. unfold lift.
  destruct (fetch_url L st rq) as [u|e]; [|done].
  rewrite bind_run, call_run. by destruct (client_fetch L st u).
Qed.

(** [fetch_image] first settles the url: the [url] argument as it is when
    no implicit base url is configured ([urlparse] is then not called) or
    when the url has a host name, the argument joined to the base url when
    one is configured and the url has no host name; an exception of
    [urlparse] or [urljoin] goes through, and then the HTTP client is not
    called.  Once the url is settled the client is called once, and neither
    the headers nor the body of the response are touched: [fetch_image]
    returns the client's response, raises [FetchError] when the client
    raises one of the two exceptions it catches, and lets any other
    exception of the client through. *)
Theorem fetch_image_once h :
  (∀ e, fetch_url L st rq = Raise e → fetch_image L st rq h = (Raise e, h))
  ∧ (∀ u, fetch_url L st rq = Ok u →
       (fetch_image L st rq h).2 = logged h [CFetch u]
       ∧ (∀ resp, client_fetch L st u = Fetched resp →
            (fetch_image L st rq h).1 = Ok resp)
       ∧ (client_fetch L st u = FetchFailed →
          (fetch_image L st rq h).1 = Raise (PilboxError FetchError ""))
       ∧ (∀ cls, client_fetch L st u = FetchRaised cls →
            (fetch_image L st rq h).1 = Raise (PyError cls)))
  ∧ (truthy (settings_get st "implicit_base_url") = false →
     fetch_url L st rq = Ok (get_argument rq "url"))
  ∧ (truthy (settings_get st "implicit_base_url") = true →
     (∀ host,
        urlparse_hostname L (get_argument rq "url") = Returns (Some host) →
        fetch_url L st rq = Ok (get_argument rq "url"))
     ∧ (urlparse_hostname L (get_argument rq "url") = Returns None →
        fetch_url L st rq
        = of_outcome (urljoin L (settings_get st "implicit_base_url")
                        (get_argument rq "url")))
     ∧ (∀ cls,
          urlparse_hostname L (get_argument rq "url") = Throws cls →
          fetch_url L st rq = Raise (PyError cls))).
Proof.
  rewrite fetch_image_run.
  split; [by intros e ->|]. split.
  - intros u ->. simpl. split; [done|].
    split; [by intros resp ->|]. split; [by intros ->|by intros cls ->].
  - unfold fetch_url. split; [by intros ->|].
    intros ->. split; [by intros host ->|]. split; by intros; simplify_eq/=;
      repeat match goal with H : _ = _ |- _ => rewrite H end.
Qed.


(** When the pipeline raises, rendering raises the same error having set no
    header and written nothing.  When rendering returns, the pipeline
    returned, and the blocks written add up to its output. *)
Theorem render_image_atomic resp h :
  (∀ e, (_process_response I st rq resp h).1 = Raise e →
     (render_image I st rq resp h).1 = Raise e
     ∧ _headers (render_image I st rq resp h).2 = _headers h
     ∧ _write_buffer (render_image I st rq resp h).2 = _write_buffer h)
  ∧ ((render_image I st rq resp h).1 = Ok () →
     ∃ outfile outfile_format,
       (_process_response I st rq resp h).1 = Ok (outfile, outfile_format)
       ∧ concat (_write_buffer (render_image I st rq resp h).2)
         = concat (_write_buffer h) ++ outfile).
Proof.
  rewrite render_image_run.
  destruct (process_response_effects resp h) as (cs & Hcs & _).
  destruct (_process_response I st rq resp h) as [[[out fmt]|e] h1];
    simpl in Hcs; subst h1.
  - split; [done|].
    destruct (set_headers_effects (headers resp) fmt (logged h cs))
      as (m & Hm).
    destruct (_set_headers st rq (headers resp) fmt _) as [[[]|e] h2];
      simpl in Hm; subst h2; simpl; [|done].
    intros _. exists out, fmt. split; [done|].
    rewrite concat_app.
    rewrite read_blocks_concat; [done|apply BLOCK_SIZE_pos|lia].
  - split; [|done]. by intros e' [= <-].
Qed.

(** The body goes out in blocks of 65536 bytes: block [i] of an output is
    its bytes from [i * 65536] on, at most 65536 of them, and there is such
    a block exactly when the output is longer than [i * 65536] bytes, so no
    block is empty and only the last can be shorter. *)
Theorem written_blocks (data : bytes) i b :
  read_blocks (S (length data)) BLOCK_SIZE data !! i = Some b ↔
  (i * BLOCK_SIZE < length data)%nat
  ∧ b = take BLOCK_SIZE (drop (i * BLOCK_SIZE) data).
Proof. apply read_blocks_lookup; [apply BLOCK_SIZE_pos|lia]. Qed.

(** [_set_headers] writes no header but [Content-Type], [Cache-Control],
    [Expires] and [Last-Modified]: every other header of the response is
    left as it was, and so are the body and the log of calls, whether it
    returns or raises. *)
Theorem set_headers_frame hdrs file_format h k :
  k ∉ WRITTEN_HEADERS →
  _headers (_set_headers st rq hdrs file_format h).2 !! k = _headers h !! k
  ∧ _write_buffer (_set_headers st rq hdrs file_format h).2
    = _write_buffer h
  ∧ calls (_set_headers st rq hdrs file_format h).2 = calls h.
Proof.
  intros Hk. unfold WRITTEN_HEADERS in Hk.
  apply not_elem_of_cons in Hk as [Hct Hfw].
  rewrite set_headers_run.
  repeat case_match; simpl; repeat split; try done;
    rewrite lookup_forwarded, decide_False by done;
    by rewrite ?lookup_insert_ne.
Qed.

(** When a format was asked for and the pipeline declares a format that
    the table of content types lacks, [_set_headers] raises a [TypeError]
    and leaves the handler as it was: no content type is set and no caching
    header is forwarded. *)
Theorem set_headers_unknown_format hdrs f h :
  f ≠ "" →
  format_requested st rq = true →
  _FORMAT_TO_MIME !! lower f = None →
  _set_headers st rq hdrs (Some f) h = (Raise (PyError "TypeError"), h).
Proof.
  intros Hf Hreq Hmime. rewrite set_headers_run.
  assert (truthy (of_arg (Some f)) = true) as -> by by destruct f.
  rewrite Hreq. simpl. by rewrite Hmime.
Qed.

End More_handler.

(** ** The drain, whatever the ticks *)

Section More_shutdown.

Import Shutdown.
Local Open Scope Q_scope.



End More_shutdown.

(** ** The settings of the application *)

Lemma lookup_copied (g : string → value) (l : list string) k :
  (list_to_map ((λ k, (k, g k)) <$> l) : gmap string value) !! k
  = if decide (k ∈ l) then Some (g k) else None.
Proof.
  induction l as [|x l IH].
  - rewrite decide_False by apply not_elem_of_nil. apply lookup_empty.
  - rewrite fmap_cons, list_to_map_cons.
    destruct (decide (x = k)) as [->|Hne].
    + rewrite lookup_insert_eq.
      by rewrite decide_True by (apply elem_of_cons; by left).
    + rewrite lookup_insert_ne by done. rewrite IH.
      destruct (decide (k ∈ l)).
      * by rewrite decide_True by (apply elem_of_cons; by right).
      * rewrite decide_False; [done|].
        rewrite elem_of_cons. intros [?|?]; congruence.
Qed.

Ltac decide_by_computation :=
  match goal with
  | |- ¬ ?P => apply (bool_decide_eq_false_1 P); vm_compute; reflexivity
  | |- ?P => apply (bool_decide_eq_true_1 P); vm_compute; reflexivity
  end.

Lemma allowed_operations_apart : "allowed_operations" ∉ SETTINGS_OPTIONS.
Proof. decide_by_computation. Qed.

Lemma unset_options_apart k :
  k ∈ ["retain"; "watermark_txt"; "watermark_img"; "watermark_pos";
       "watermark_txt_size"; "watermark_txt_color"; "watermark_img_ratio"] →
  (k ∉ SETTINGS_OPTIONS) ∧ (k ≠ "allowed_operations").
Proof.
  rewrite !elem_of_cons, elem_of_nil.
  intros [->|[->|[->|[->|[->|[->|[->|[]]]]]]]];
    (split; [decide_by_computation|done]).
Qed.

Lemma Ok_inj {A} (a b : A) : Ok a = Ok b → a = b.
Proof. congruence. Qed.

Lemma application_settings_built pycurl options kwargs st :
  PilboxApplication_settings pycurl options kwargs = Ok st →
  ∃ allowed,
    py_set (if truthy (settings_get options "allowed_operations")
            then settings_get options "allowed_operations"
            else VList OPERATIONS) = Ok allowed
    ∧ st = kwargs ∪ <["allowed_operations" := allowed]>
                      (list_to_map ((λ k, (k, settings_get options k))
                                      <$> SETTINGS_OPTIONS))
    ∧ (truthy (settings_get st "proxy_host") = true → pycurl = true).
Proof.
  unfold PilboxApplication_settings. intros H.
  destruct (py_set _) as [allowed|e]; [|discriminate H].
  unfold mbind, result_bind in H. cbv beta iota zeta in H.
  destruct (truthy _ && negb pycurl) eqn:E; [discriminate H|].
  apply Ok_inj in H. subst st. exists allowed.
  split; [reflexivity|]. split; [reflexivity|].
  intros Ht. rewrite Ht in E. destruct pycurl; [reflexivity|discriminate E].
Qed.

(** The settings that [PilboxApplication] builds: a keyword argument
    overrides the option of its name; otherwise each of the copied options
    is in the settings with the value the options give it;
    [allowed_operations] is the five stock operations when the options name
    none; a key that is neither a keyword argument nor a copied option is
    not in the settings; and the application is not built with a proxy host
    when [pycurl] is missing. *)
Theorem application_settings pycurl options kwargs st :
  PilboxApplication_settings pycurl options kwargs = Ok st →
  (∀ k v, kwargs !! k = Some v → st !! k = Some v)
  ∧ (∀ k, kwargs !! k = None → k ∈ SETTINGS_OPTIONS →
       st !! k = Some (settings_get options k))
  ∧ (kwargs !! "allowed_operations" = None →
     truthy (settings_get options "allowed_operations") = false →
     st !! "allowed_operations" = Some (VList OPERATIONS))
  ∧ (∀ k, kwargs !! k = None → k ∉ SETTINGS_OPTIONS →
       k ≠ "allowed_operations" → st !! k = None)
  ∧ (truthy (settings_get st "proxy_host") = true → pycurl = true).
Proof.
  intros H.
  apply application_settings_built in H as (allowed & Hset & -> & Hproxy).
  split; [|split; [|split; [|split]]]; [| | | |exact Hproxy].
  - intros k v Hk. by apply lookup_union_Some_l.
  - intros k Hk Hin. rewrite lookup_union_r by done.
    rewrite lookup_insert_ne
      by (intros <-; by apply allowed_operations_apart).
    by rewrite lookup_copied, decide_True.
  - intros Hk Hnone. rewrite lookup_union_r by done.
    rewrite lookup_insert_eq. rewrite Hnone in Hset. simpl in Hset.
    congruence.
  - intros k Hk Hout Hne. rewrite lookup_union_r by done.
    rewrite lookup_insert_ne by done.
    by rewrite lookup_copied, decide_False.
Qed.

Lemma options_unset st rq :
  (∀ k,
     k ∈ ["retain"; "watermark_txt"; "watermark_img"; "watermark_pos";
          "watermark_txt_size"; "watermark_txt_color";
          "watermark_img_ratio"] →
     settings_get st k = VNone) →
  _get_resize_options st rq !! "retain"
    = Some (of_arg (get_argument rq "retain"))
  ∧ (∀ k, k ∈ watermark_fields.*1 →
       _get_watermark_options st rq !! k
       = Some (of_arg (get_argument rq k))).
Proof.
  intros Hnone. split.
  - unfold _get_resize_options.
    rewrite lookup_get_options, lookup_dict_of_args.
    change (list_to_map resize_fields !! "retain") with (Some "retain").
    simpl. destruct (get_argument rq "retain"); simpl; [done|].
    rewrite Hnone; [done|]. apply elem_of_cons. by left.
  - intros k Hk. unfold _get_watermark_options.
    rewrite lookup_get_options, lookup_dict_of_args.
    assert (Hk' : k ∈ ["retain"; "watermark_txt"; "watermark_img";
                       "watermark_pos"; "watermark_txt_size";
                       "watermark_txt_color"; "watermark_img_ratio"])
      by (apply elem_of_cons; by right).
    assert (list_to_map watermark_fields !! k = Some k) as ->.
    { simpl in Hk. rewrite !elem_of_cons, elem_of_nil in Hk.
      destruct Hk as [->|[->|[->|[->|[->|[->|[]]]]]]];
        vm_compute; reflexivity. }
    simpl. destruct (get_argument rq k); simpl; [done|].
    by rewrite Hnone.
Qed.

(** Under settings built without keyword arguments, the [retain] option of
    resize and the watermark options never take a default: whatever the
    options hold, [retain] among them, each of these resolves to the request
    argument of its name, or to [None] when the request lacks it. *)
Theorem options_without_default pycurl options st rq :
  PilboxApplication_settings pycurl options ∅ = Ok st →
  _get_resize_options st rq !! "retain"
    = Some (of_arg (get_argument rq "retain"))
  ∧ (∀ k, k ∈ watermark_fields.*1 →
       _get_watermark_options st rq !! k
       = Some (of_arg (get_argument rq k))).
Proof.
  intros H. apply options_unset.
  apply application_settings_built in H as (allowed & _ & -> & _).
  intros k Hk. apply unset_options_apart in Hk as [Hout Hne].
  unfold settings_get. rewrite lookup_union_r by apply lookup_empty.
  rewrite lookup_insert_ne by (intros Heq; apply Hne; symmetry; exact Heq).
  rewrite lookup_copied, decide_False by exact Hout. reflexivity.
Qed.

(** Under settings built from options that name no allowed operations and
    keep the stock limit of ten, without keyword arguments, the operation
    check accepts a request exactly when each of its operations is one of
    the five stock operations: the length of its list plays no part. *)
Theorem stock_application_operations pycurl options st rq ops :
  PilboxApplication_settings pycurl options ∅ = Ok st →
  truthy (settings_get options "allowed_operations") = false →
  settings_get options "max_operations" = VInt 10 →
  _get_operations st rq = Ok ops →
  (_validate_operation st rq = Ok () ↔ ops ⊆ OPERATIONS)
  ∧ (_validate_operation st rq = Ok ()
     ∨ _validate_operation st rq
       = Raise (PilboxError OperationError "Unsupported operation")).
Proof.
  intros H Hallowed Hmax Hops.
  apply application_settings_built in H as (allowed & Hset & Hst & _).
  rewrite Hallowed in Hset. simpl in Hset. injection Hset as <-.
  assert (Ha : settings_get st "allowed_operations" = VList OPERATIONS).
  { subst st. unfold settings_get.
    rewrite lookup_union_r by apply lookup_empty.
    by rewrite lookup_insert_eq. }
  assert (Hm : settings_get st "max_operations" = VInt 10).
  { subst st. unfold settings_get.
    rewrite lookup_union_r by apply lookup_empty.
    rewrite lookup_insert_ne by done.
    rewrite lookup_copied, decide_True; [done|].
    decide_by_computation. }
  clear Hst.
  apply (validate_operation_within st rq ops OPERATIONS 10 Hops Ha Hm).
  vm_compute. discriminate.
Qed.

(** ** The further statements at concrete requests *)

Lemma validate_url_accepts_witness :
  _validate_url stock_settings resize_rotate_request = Ok ().
Proof.
  destruct (validate_url_accepts stock_settings resize_rotate_request)
    as [[_ H] _].
  apply H. exists "http://example.com/a.jpg".
  split; [vm_compute; reflexivity|]. split; [discriminate|].
  left. vm_compute; reflexivity.
Defined.

Lemma validate_client_exact_witness :
  _validate_client built_settings_kwargs sample_client_request = Ok ().
Proof.
  destruct (validate_client_exact built_settings_kwargs sample_client_request)
    as [H _].
  destruct (H "sample") as [[_ Hok] _].
  - vm_compute; reflexivity.
  - discriminate.
  - apply Hok. vm_compute; reflexivity.
Defined.

Lemma validate_host_member_witness :
  _validate_host plain_lib built_settings_kwargs sample_client_request
  = Ok ().
Proof.
  destruct (validate_host_member plain_lib built_settings_kwargs
              sample_client_request) as [H _].
  destruct (H ["example.com"]) as [Hparsed _].
  - vm_compute; reflexivity.
  - discriminate.
  - destruct (Hparsed (Some "example.com")) as [[_ Hok] _].
    + vm_compute; reflexivity.
    + apply Hok. exists "example.com".
      split; [reflexivity|]. apply elem_of_cons. left. reflexivity.
Defined.

Lemma validate_operation_accepts_witness :
  _validate_operation stock_settings resize_rotate_request = Ok ().
Proof.
  destruct (validate_operation_accepts stock_settings resize_rotate_request
              ["resize"; "rotate"] OPERATIONS 10) as [[_ H] _].
  - vm_compute; reflexivity.
  - vm_compute; reflexivity.
  - vm_compute; reflexivity.
  - apply H. split; [decide_by_computation|]. vm_compute. discriminate.
Defined.

Lemma too_many_operations_unreachable_witness :
  _validate_operation stock_settings repeated_request = Ok ().
Proof.
  destruct (too_many_operations_unreachable stock_settings repeated_request
              ["resize"; "resize"; "resize"] OPERATIONS 10) as [[_ H] _].
  - vm_compute; reflexivity.
  - vm_compute; reflexivity.
  - vm_compute; reflexivity.
  - vm_compute. discriminate.
  - apply H. decide_by_computation.
Defined.

Lemma empty_operation_rejected_witness :
  _validate_operation stock_settings trailing_comma_request
  = Raise (PilboxError OperationError "Unsupported operation").
Proof.
  apply (empty_operation_rejected stock_settings trailing_comma_request
           "resize" OPERATIONS).
  - right. vm_compute; reflexivity.
  - vm_compute; reflexivity.
  - decide_by_computation.
Defined.

Lemma resize_limits_witness :
  validate_resize plain_lib plain_image stock_settings wide_request ∅
  = Raise (PilboxError DimensionsError "Exceeds maximum allowed width").
Proof.
  destruct (resize_limits plain_lib plain_image stock_settings wide_request
              ∅ 15000 15000) as [H _].
  - reflexivity.
  - vm_compute; reflexivity.
  - vm_compute; reflexivity.
  - apply (H "20000" 20000).
    + vm_compute; reflexivity.
    + discriminate.
    + vm_compute; reflexivity.
    + reflexivity.
Defined.

Lemma get_operations_fields_witness :
  join_comma ["resize"; "rotate"] = "resize,rotate".
Proof.
  destruct (get_operations_fields stock_settings resize_rotate_request
              ["resize"; "rotate"]) as (_ & _ & H).
  - vm_compute; reflexivity.
  - apply H. vm_compute; reflexivity.
Defined.

Lemma shared_options_agree_witness :
  (_get_resize_options stock_settings sample_client_request
   ∪ _get_save_options stock_settings sample_client_request) !! "background"
  = Some (VStr "fff").
Proof.
  destruct (shared_options_agree stock_settings sample_client_request)
    as [_ H].
  apply H. vm_compute; reflexivity.
Defined.

Lemma fetch_image_once_witness :
  fetch_image strict_lib base_url_settings bracket_request fresh
  = (Raise (PyError "ValueError"), fresh).
Proof.
  destruct (fetch_image_once strict_lib base_url_settings bracket_request
              fresh) as [H _].
  apply H. vm_compute; reflexivity.
Defined.


Lemma render_image_atomic_witness :
  (render_image broken_image stock_settings resize_rotate_request
     upstream_response fresh).1
  = Raise (ImageError "ImageFormatError" "")
  ∧ _headers (render_image broken_image stock_settings resize_rotate_request
                upstream_response fresh).2 = _headers fresh
  ∧ _write_buffer (render_image broken_image stock_settings
                     resize_rotate_request upstream_response fresh).2
    = _write_buffer fresh.
Proof.
  destruct (render_image_atomic broken_image stock_settings
              resize_rotate_request upstream_response fresh) as [H _].
  apply H. vm_compute; reflexivity.
Defined.

Lemma written_blocks_witness :
  read_blocks (S (length [Byte.x01; Byte.x02])) BLOCK_SIZE
    [Byte.x01; Byte.x02] !! 0%nat
  = Some (take BLOCK_SIZE (drop (0 * BLOCK_SIZE) [Byte.x01; Byte.x02])).
Proof.
  apply (written_blocks [Byte.x01; Byte.x02] 0
           (take BLOCK_SIZE (drop (0 * BLOCK_SIZE) [Byte.x01; Byte.x02]))).
  split; [simpl; lia|reflexivity].
Defined.

Lemma set_headers_frame_witness :
  _headers (_set_headers stock_settings resize_rotate_request
              upstream_headers (Some "PNG") fresh).2 !! "Server"
  = _headers fresh !! "Server".
Proof.
  apply (set_headers_frame stock_settings resize_rotate_request
           upstream_headers (Some "PNG") fresh "Server").
  decide_by_computation.
Defined.

Lemma set_headers_unknown_format_witness :
  _set_headers stock_settings resize_rotate_request upstream_headers
    (Some "BMP") fresh
  = (Raise (PyError "TypeError"), fresh).
Proof.
  apply (set_headers_unknown_format stock_settings resize_rotate_request
           upstream_headers "BMP" fresh).
  - discriminate.
  - vm_compute; reflexivity.
  - vm_compute; reflexivity.
Defined.


Lemma application_settings_witness :
  built_settings_kwargs !! "client_name" = Some (VStr "sample").
Proof.
  destruct (application_settings true sample_options sample_kwargs
              built_settings_kwargs) as [H _].
  - vm_compute; reflexivity.
  - apply H. vm_compute; reflexivity.
Defined.

Lemma options_without_default_witness :
  _get_resize_options built_settings resize_rotate_request !! "retain"
  = Some (of_arg (get_argument resize_rotate_request "retain")).
Proof.
  apply (options_without_default true sample_options built_settings
           resize_rotate_request).
  vm_compute; reflexivity.
Defined.

Lemma stock_application_operations_witness :
  _validate_operation built_settings repeated_request = Ok ().
Proof.
  destruct (stock_application_operations true sample_options built_settings
              repeated_request ["resize"; "resize"; "resize"])
    as [[_ H] _].
  - vm_compute; reflexivity.
  - vm_compute; reflexivity.
  - vm_compute; reflexivity.
  - vm_compute; reflexivity.
  - apply H. decide_by_computation.
Defined.
